(** * Audio steganography core (src/app.py): LSB and echo hiding

    Shallow embedding of the encode/decode functions of [src/app.py].

    - A Python character is its code point, a [Z]; a Python [str] is a
      [list Z] of code points.
    - A bit string produced by [format(ord(c), "08b")] is a [list bool],
      most significant bit first.
    - The WAV container (the [wave] module) is an external collaborator:
      a [Wav] is the content of such a file, its parameters and its frames
      as signed 16-bit integers.  [read_wav_bytes] hands them out
      (numpy's [float32] holds every int16 exactly); [write_wav_bytes]
      clips to the signed 16-bit range and truncates toward zero
      ([np.int16] on floats), as the source does.
    - numpy's float32 sample arithmetic is modelled bit for bit on finite
      values: each product, sum and difference is rounded to the nearest
      float32 (ties to even), [alpha] (the exact value of the Python float)
      is cast to float32 where it meets a float32 array, and [np.sum] adds
      in numpy's pairwise order. *)

From Stdlib Require Import String Ascii ZArith QArith List Lia Bool Lqa.
Import ListNotations.

Open Scope Z_scope.

(** ** Strings and bit strings *)

(** Code points of a string literal. *)
Definition codes (s : string) : list Z :=
  map (fun a => Z.of_nat (nat_of_ascii a)) (list_ascii_of_string s).

(** The terminator ["###"]; [#] is code point 35. *)
Definition terminator : list Z := Eval cbv in codes "###".

(** The outcome string of a decode that finds no terminator. *)
Definition no_message : list Z := Eval cbv in codes "No hidden message found".

(** [format(n, "08b")]: the binary digits of [n], at least 8 of them,
    zero padded on the left, most significant first. *)
Definition fmt08b (n : Z) : list bool :=
  let w := Z.to_nat (Z.max 8 (Z.log2 n + 1)) in
  map (fun k => Z.testbit n (Z.of_nat k)) (rev (seq 0 w)).

(** [bits = "".join(format(ord(c), "08b") for c in message + "###")]
    (shared by [encode_lsb] and [encode_echo_simple]). *)
Definition frame_bits (message : list Z) : list bool :=
  flat_map fmt08b (message ++ terminator).

(** [int("".join(byte), 2)] for a list of 0/1 digits. *)
Definition bits_value (byte : list Z) : Z :=
  fold_left (fun acc b => 2 * acc + b) byte 0.

(** [s.endswith(suf)]. *)
Definition ends_with (s suf : list Z) : bool :=
  Nat.leb (length suf) (length s) &&
  (if list_eq_dec Z.eq_dec (skipn (length s - length suf) s) suf
   then true else false).

(** [sub in s]: does [sub] occur in [s] as a contiguous substring. *)
Fixpoint prefixb (p s : list Z) : bool :=
  match p, s with
  | [], _ => true
  | x :: p', y :: s' => (x =? y) && prefixb p' s'
  | _ :: _, [] => false
  end.

Fixpoint infixb (sub s : list Z) : bool :=
  prefixb sub s ||
  match s with
  | [] => false
  | _ :: s' => infixb sub s'
  end.

(** ** The WAV container (external collaborator) *)

(** [wave]'s [_wave_params]. *)
Record WavParams := mkParams {
  nchannels : Z; sampwidth : Z; framerate : Z; nframes : Z;
  comptype : string; compname : string }.

(** A WAV file: its parameters and its 16-bit frames. *)
Record Wav := mkWav { params : WavParams; frames : list Z }.

Definition read_wav_bytes (audio : Wav) : list Z * WavParams :=
  (frames audio, params audio).

(** [np.clip(x, -32768, 32767)] *)
Definition clip16 (x : Q) : Q :=
  if Qle_bool x (-32768 # 1) then (-32768 # 1)
  else if Qle_bool (32767 # 1) x then (32767 # 1) else x.

(** [np.int16(x)] on an in-range float: truncation toward zero. *)
Definition trunc_int16 (x : Q) : Z := Z.quot (Qnum x) (Zpos (Qden x)).

Definition write_wav_bytes (samples : list Q) (p : WavParams) : Wav :=
  mkWav p (map (fun x => trunc_int16 (clip16 x)) samples).

(** Sample well-formedness: a signed 16-bit value. *)
Definition in_int16 (s : Z) : Prop := -32768 <= s <= 32767.

(** [.view(np.uint16)] and [.view(np.int16)] of one sample. *)
Definition to_uint16 (s : Z) : Z := s mod 65536.
Definition to_int16 (u : Z) : Z := if u <? 32768 then u else u - 65536.

(** ** LSB hiding *)

(** [for i, b in enumerate(bits): flat[i] = (flat[i] & 0xFFFE) | int(b)],
    on a [flat] at least as long as [bits] (the capacity check guards it). *)
Fixpoint embed_bits (flat : list Z) (bits : list bool) : list Z :=
  match bits, flat with
  | [], _ => flat
  | b :: bs, f :: fs => Z.lor (Z.land f 65534) (Z.b2z b) :: embed_bits fs bs
  | _ :: _, [] => []
  end.

Definition encode_lsb (audio_bytes : Wav) (message : list Z) : option Wav :=
  let '(samples, prms) := read_wav_bytes audio_bytes in
  let bits := frame_bits message in
  let flat := map to_uint16 samples in
  if Nat.ltb (length flat) (length bits) then None
  else Some (write_wav_bytes
               (map (fun u => inject_Z (to_int16 u)) (embed_bits flat bits)) prms).

(** The loop [for i in range(0, len(bits), 8)] of [decode_lsb]: [n] is the
    number of iterations left, [bits] the bits from index [i] on. *)
Fixpoint lsb_loop (n : nat) (bits : list Z) (chars : list Z) : list Z :=
  match n with
  | O => no_message
  | S n' =>
      let byte := firstn 8 bits in
      if Nat.ltb (length byte) 8 then no_message else
      let char_val := bits_value byte in
      if char_val =? 0 then no_message else
      let chars' := chars ++ [char_val] in
      if ends_with chars' terminator then firstn (length chars' - 3) chars'
      else lsb_loop n' (skipn 8 bits) chars'
  end.

(** Number of iterations of [range(0, len, 8)]. *)
Definition range8 (len : nat) : nat := (len + 7) / 8.

Definition decode_lsb (stego_bytes : Wav) : list Z :=
  let '(samples, _) := read_wav_bytes stego_bytes in
  let flat := map to_uint16 samples in
  let bits := map (fun s => Z.land s 1) flat in
  lsb_loop (range8 (length bits)) bits [].

(** ** Echo hiding *)

Definition chunk_size : Z := 8192.

(** Python slice [l[a:b]] for indices [0 <= a] (the only ones that arise
    for non-negative delays); out-of-range ends are clipped as in Python. *)
Definition slice {A} (l : list A) (a b : Z) : list A :=
  firstn (Z.to_nat b - Z.to_nat a) (skipn (Z.to_nat a) l).

(** numpy's elementwise operation on two arrays of the same shape. *)
Fixpoint zip_with {A B C} (f : A -> B -> C) (xs : list A) (ys : list B) : list C :=
  match xs, ys with
  | x :: xs', y :: ys' => f x y :: zip_with f xs' ys'
  | _, _ => []
  end.

(** *** numpy float32 arithmetic

    A finite float32 is an integer multiple of [2^-149]; an [f32] holds it
    as that integer.  [round32 x d] is the float32 nearest to [x / d] units
    ([d > 0]), ties to even: 24 significant bits, with a quantum of at least
    one unit (the subnormals).  Each operation rounds its exact result once,
    as IEEE-754 single precision does.  Infinities and NaN are not
    represented: they need magnitudes of [2^128], which the echo code does
    not reach on 16-bit samples for any [|alpha| < 2^100], in particular
    for the spec's [alpha] in [(0, 1]]. *)
Abbreviation f32 := Z (only parsing).

(** The integer nearest to [a / D] ([a >= 0], [D > 0]), ties to even. *)
Definition rne_div (a D : Z) : Z :=
  let q := a / D in
  let r := a mod D in
  if 2 * r <? D then q
  else if D <? 2 * r then q + 1
  else if Z.even q then q else q + 1.

Definition round32 (x d : Z) : f32 :=
  let a := Z.abs x in
  let sh := Z.max (Z.log2 (a / d) - 23) 0 in
  Z.sgn x * (rne_div a (d * 2 ^ sh) * 2 ^ sh).

(** [np.float32(x)] of the value [x] of a Python float. *)
Definition f32_of_Q (x : Q) : f32 := round32 (Qnum x * 2 ^ 149) (Zpos (Qden x)).

(** [astype(np.float32)] of an int16 sample, which is exact. *)
Definition of_int16 (s : Z) : f32 := s * 2 ^ 149.

(** The value of a float32. *)
Definition f32_to_Q (x : f32) : Q := Qmake x (2 ^ 149)%positive.

Definition fadd (x y : f32) : f32 := round32 (x + y) 1.
Definition fsub (x y : f32) : f32 := round32 (x - y) 1.
Definition fmul (x y : f32) : f32 := round32 (x * y) (2 ^ 149).
Definition fabs (x : f32) : f32 := Z.abs x.

(** numpy's pairwise summation ([pairwise_sum] of
    [loops_utils.h.src]) for an addition [add]: below 8 terms a plain loop
    from [0]; up to 128 terms eight interleaved accumulators [r[0..7]],
    combined as [((r0+r1)+(r2+r3))+((r4+r5)+(r6+r7))], then the remaining
    [n mod 8] terms; above 128 terms the two halves, split at a multiple
    of 8, summed recursively. *)
Definition pw_block (add : Z -> Z -> Z) (a : list Z) : Z :=
  let n := length a in
  let m := (n - n mod 8)%nat in
  let r j := fold_left (fun acc i => add acc (nth (i + j) a 0))
                       (map (Nat.mul 8) (seq 1 (m / 8 - 1))) (nth j a 0) in
  let res := add (add (add (r 0%nat) (r 1%nat)) (add (r 2%nat) (r 3%nat)))
                 (add (add (r 4%nat) (r 5%nat)) (add (r 6%nat) (r 7%nat))) in
  fold_left (fun acc i => add acc (nth i a 0)) (seq m (n - m)) res.

(** [fuel] bounds the recursion depth; [length a] is always enough, since
    each half is shorter than the whole. *)
Fixpoint pairwise_fuel (add : Z -> Z -> Z) (fuel : nat) (a : list Z) : Z :=
  match fuel with
  | O => 0
  | S fuel' =>
      let n := length a in
      if (n <? 8)%nat then fold_left add a 0
      else if (n <=? 128)%nat then pw_block add a
      else
        let n2 := (n / 2 - (n / 2) mod 8)%nat in
        add (pairwise_fuel add fuel' (firstn n2 a)) (pairwise_fuel add fuel' (skipn n2 a))
  end.

(** [np.sum] of a float32 array of at most 8192 elements, numpy's buffer
    size, so one inner loop: the identity [0] plus the pairwise sum. *)
Definition np_sum (a : list f32) : f32 := fadd 0 (pairwise_fuel fadd (length a) a).

(** [out[a : a + len(v)] += v], for a destination inside [out]. *)
Definition slice_add (out : list f32) (a : nat) (v : list f32) : list f32 :=
  firstn a out ++ zip_with fadd (firstn (length v) (skipn a out)) v
    ++ skipn (a + length v) out.

(** The loop [for i, bit in enumerate(bits)] of [encode_echo_simple]:
    [i] is the index of the head of [bits]; [n] is [len(samples)]. *)
Fixpoint echo_embed (samples : list f32) (n d0 d1 max_delay : Z) (alpha : Q)
    (i : Z) (bits : list bool) (out : list f32) : list f32 :=
  match bits with
  | [] => out
  | bit :: bits' =>
      let start := i * chunk_size in
      let end_ := Z.min (start + chunk_size) (n - max_delay) in
      if end_ <=? start then out else
      let delay := if bit then d1 else d0 in
      let chunk := slice samples start end_ in
      let echo_start := start + delay in
      let echo_end := echo_start + Z.of_nat (length chunk) in
      let out' :=
        if echo_end <=? Z.of_nat (length out)
        then slice_add out (Z.to_nat echo_start) (map (fmul (f32_of_Q alpha)) chunk)
        else out in
      echo_embed samples n d0 d1 max_delay alpha (i + 1) bits' out'
  end.

Definition encode_echo_simple (audio_bytes : Wav) (message : list Z)
    (d0 d1 : Z) (alpha : Q) : option Wav :=
  let '(samples, prms) := read_wav_bytes audio_bytes in
  let samples := map of_int16 samples in
  let bits := frame_bits message in
  let max_delay := Z.max d0 d1 in
  let n := Z.of_nat (length samples) in
  if n <? Z.of_nat (length bits) * chunk_size + max_delay then None
  else Some (write_wav_bytes (map f32_to_Q (echo_embed samples n d0 d1 max_delay alpha 0 bits samples)) prms).

(** One entry of [debug_info]: the chunk index, the two correlation
    magnitudes and the decided bit (the f-string renders these four). *)
Record Diag := mkDiag { diag_chunk : Z; diag_corr_d0 : f32; diag_corr_d1 : f32; diag_bit : bool }.

Definition sumZ (l : list Z) : Z := fold_left Z.add l 0.

(** The loop [for i in range(num_chunks)] of [decode_echo_simple]:
    [k] iterations left, [i] the current chunk, [m] is
    [min(len(original), len(stego))]. *)
Fixpoint echo_detect (original stego : list f32) (m d0 d1 max_delay : Z)
    (k : nat) (i : Z) : list bool * list Diag :=
  match k with
  | O => ([], [])
  | S k' =>
      let start := i * chunk_size in
      let end_ := start + chunk_size in
      if m <? end_ + max_delay then ([], []) else
      let echo := zip_with fsub (slice stego start (end_ + max_delay))
                                (slice original start (end_ + max_delay)) in
      let orig_chunk := slice original start end_ in
      let echo_d0 := slice echo d0 (d0 + Z.of_nat (length orig_chunk)) in
      let echo_d1 := slice echo d1 (d1 + Z.of_nat (length orig_chunk)) in
      let corr_d0 := fabs (np_sum (zip_with fmul orig_chunk echo_d0)) in
      let corr_d1 := fabs (np_sum (zip_with fmul orig_chunk echo_d1)) in
      let bit := corr_d0 <? corr_d1 in
      let '(bits, debug_info) :=
        echo_detect original stego m d0 d1 max_delay k' (i + 1) in
      (bit :: bits, mkDiag i corr_d0 corr_d1 bit :: debug_info)
  end.

(** The character loop of [decode_echo_simple] ([chr] never raises on
    [1..127], so the [try]/[except] is never taken). *)
Fixpoint echo_chars (n : nat) (bits : list bool) (chars : list Z) : list Z :=
  match n with
  | O => no_message
  | S n' =>
      let byte := firstn 8 bits in
      if Nat.ltb (length byte) 8 then no_message else
      let char_val := bits_value (map Z.b2z byte) in
      if (char_val =? 0) || (127 <? char_val) then no_message else
      let chars' := chars ++ [char_val] in
      if ends_with chars' terminator then firstn (length chars' - 3) chars'
      else echo_chars n' (skipn 8 bits) chars'
  end.

Definition decode_echo_simple (original_bytes stego_bytes : Wav) (d0 d1 : Z)
    : list Z * list Diag * list bool :=
  let '(original, _) := read_wav_bytes original_bytes in
  let '(stego, _) := read_wav_bytes stego_bytes in
  let original := map of_int16 original in
  let stego := map of_int16 stego in
  let max_delay := Z.max d0 d1 in
  let m := Z.min (Z.of_nat (length original)) (Z.of_nat (length stego)) in
  let num_chunks := (m - max_delay) / chunk_size in
  let '(bits, debug_info) :=
    echo_detect original stego m d0 d1 max_delay (Z.to_nat num_chunks) 0 in
  (echo_chars (range8 (length bits)) bits [], debug_info, bits).

(** ** Sample-wise reading of the echo encoder and decoder *)

(** Sample [k] of [encode_echo_simple]'s [out] before serialisation, read
    sample by sample: starting from [acc], bit [i] (delay [d1] if set,
    [d0] otherwise) adds [float32(alpha) * samples[k - delay]], both
    operations rounded to float32, when [k] lies in its
    echo window [[i*chunk_size + delay, i*chunk_size + delay + chunk_size)]. *)
Fixpoint echo_point (samples : list f32) (d0 d1 : Z) (alpha : Q) (i : Z)
    (bits : list bool) (k : Z) (acc : f32) : f32 :=
  match bits with
  | [] => acc
  | bit :: bits' =>
      let delay := if bit then d1 else d0 in
      let a := i * chunk_size + delay in
      let acc' := if (a <=? k) && (k <? a + chunk_size)
                  then fadd acc (fmul (f32_of_Q alpha) (nth (Z.to_nat (k - delay)) samples 0))
                  else acc in
      echo_point samples d0 d1 alpha (i + 1) bits' k acc'
  end.

(** The correlation magnitude of chunk [i] at offset [d], in float32:
    [|np.sum_j original[i*chunk_size + j] * (stego - original)[i*chunk_size + d + j]|]. *)
Definition corr (original stego : list Z) (d : Z) (i : nat) : f32 :=
  fabs (np_sum (map (fun j =>
    let p := Z.to_nat (Z.of_nat i * chunk_size + d + Z.of_nat j) in
    fmul (of_int16 (nth (Z.to_nat (Z.of_nat i * chunk_size + Z.of_nat j)) original 0))
         (fsub (of_int16 (nth p stego 0)) (of_int16 (nth p original 0))))
    (seq 0 (Z.to_nat chunk_size)))).

(** Number of chunks [decode_echo_simple] examines. *)
Definition num_chunks (o s : Wav) (d0 d1 : Z) : nat :=
  Z.to_nat ((Z.min (Z.of_nat (length (frames o))) (Z.of_nat (length (frames s)))
             - Z.max d0 d1) / chunk_size).

(** ** Audio-quality scripts (src/snr.py, src/pesq_eval.py) *)

(** [calculate_snr] of [src/snr.py] on int16 recordings already cut to a
    common length; [10 * log10] is applied to [signal_power / noise_power],
    and [SnrDb r] keeps that ratio [r]. *)
Inductive Snr := SnrInf | SnrDb (ratio : Q).

Definition signal_power (original : list Z) : Z := sumZ (map (fun a => a * a) original).

Definition noise_power (original stego : list Z) : Z :=
  sumZ (zip_with (fun a b => (a - b) * (a - b)) original stego).

Definition calculate_snr (original stego : list Z) : Snr :=
  let signal_power := signal_power original in
  let noise_power := noise_power original stego in
  if noise_power =? 0 then SnrInf
  else SnrDb (inject_Z signal_power / inject_Z noise_power).

(** [convert_to_mono] of [src/pesq_eval.py]: a [wavfile.read] result is a
    one-dimensional array or an array of stereo frames; the mean of the two
    channels is truncated toward zero by [astype(np.int16)]. *)
Inductive Audio := MonoAudio (samples : list Z) | StereoAudio (frames2 : list (Z * Z)).

Definition convert_to_mono (audio : Audio) : list Z :=
  match audio with
  | StereoAudio l => map (fun '(x, y) => Z.quot (x + y) 2) l
  | MonoAudio l => l
  end.

(** ** Inputs used by the examples *)

Definition mono16 (n : nat) : WavParams :=
  mkParams 1 2 16000 (Z.of_nat n) "NONE" "not compressed".

(** A mono buffer of [n] samples, all equal to [v]. *)
Definition const_wav (v : Z) (n : nat) : Wav := mkWav (mono16 n) (repeat v n).

(** [n] consecutive integers from [base]. *)
Fixpoint zrange (k : nat) (base : Z) : list Z :=
  match k with
  | O => []
  | S k' => base :: zrange k' (base + 1)
  end.

(** A buffer with a unit pulse at the head of every chunk, and a copy of it
    with a unit echo [d] samples after the pulse of each chunk whose bit
    is set. *)
Definition pulse_wav (n : nat) : Wav :=
  mkWav (mono16 n) (map (fun p => if p mod chunk_size =? 0 then 1 else 0) (zrange n 0)).

Definition pulse_echo_wav (n : nat) (d : Z) (bits : list bool) : Wav :=
  mkWav (mono16 n)
    (map (fun p => (if p mod chunk_size =? 0 then 1 else 0)
                   + (if (p mod chunk_size =? d) && nth (Z.to_nat (p / chunk_size)) bits false
                      then 1 else 0)) (zrange n 0)).

(** Two one-chunk buffers of 8592 samples: an original starting with
    [4096; 1], and a stego copy with echoes [4096] at 200 and [4096; 1] at
    400.  The exact correlations are [2^24] at delay 200 and [2^24 + 1] at
    delay 400; in float32 both are [2^24]. *)
Definition near_tie_orig : Wav := mkWav (mono16 (Z.to_nat 8592)) ([4096; 1] ++ repeat 0 (Z.to_nat 8590)).

Definition near_tie_stego : Wav :=
  mkWav (mono16 (Z.to_nat 8592))
    ([4096; 1] ++ repeat 0 198 ++ [4096] ++ repeat 0 199 ++ [4096; 1] ++ repeat 0 (Z.to_nat 8190)).

(** Character classes of the messages. *)
Definition byte_char (c : Z) : Prop := 0 <= c < 256.
Definition ascii_char (c : Z) : Prop := 0 <= c < 128.

(** ** Lemmas on bit strings *)

Lemma byte_table (P : Z -> bool) :
  forallb P (map Z.of_nat (seq 0 256)) = true -> forall c, 0 <= c < 256 -> P c = true.
Proof.
  intros H c Hc. rewrite forallb_forall in H. apply H.
  apply in_map_iff. exists (Z.to_nat c). split; [lia|]. apply in_seq. lia.
Qed.

Lemma fmt08b_length c : 0 <= c < 256 -> length (fmt08b c) = 8%nat.
Proof.
  intro Hc. apply Nat.eqb_eq.
  exact (byte_table (fun c => Nat.eqb (length (fmt08b c)) 8) eq_refl c Hc).
Qed.

Lemma fmt08b_value c : 0 <= c < 256 -> bits_value (map Z.b2z (fmt08b c)) = c.
Proof.
  intro Hc. apply Z.eqb_eq.
  exact (byte_table (fun c => bits_value (map Z.b2z (fmt08b c)) =? c) eq_refl c Hc).
Qed.

Lemma frame_bits_length m :
  Forall byte_char m -> length (frame_bits m) = (8 * (length m + 3))%nat.
Proof.
  intro Hm. unfold frame_bits.
  assert (H : Forall byte_char (m ++ terminator)).
  { apply Forall_app; split; [exact Hm|]. repeat constructor; unfold byte_char; lia. }
  replace (length m + 3)%nat with (length (m ++ terminator))
    by (rewrite length_app; reflexivity).
  induction H as [|c l Hc _ IH]; [reflexivity|].
  simpl. rewrite length_app, fmt08b_length by exact Hc. rewrite IH. lia.
Qed.

Lemma ends_with_spec s suf : ends_with s suf = true <-> exists a, s = a ++ suf.
Proof.
  unfold ends_with. rewrite andb_true_iff, Nat.leb_le. split.
  - intros [Hl Heq]. destruct (list_eq_dec _ _ _) as [E|]; [|discriminate].
    exists (firstn (length s - length suf) s). rewrite <- E at 2.
    symmetry. apply firstn_skipn.
  - intros [a ->]. rewrite length_app. split; [lia|].
    replace (length a + length suf - length suf)%nat with (length a) by lia.
    rewrite skipn_app, skipn_all, Nat.sub_diag. simpl.
    destruct (list_eq_dec _ _ _) as [|n]; [reflexivity|contradiction].
Qed.

Lemma prefixb_spec p s : prefixb p s = true <-> exists b, s = p ++ b.
Proof.
  revert s. induction p as [|x p IH]; intros s; simpl.
  - split; [eauto|reflexivity].
  - destruct s as [|y s].
    + split; [discriminate|]. intros [b E]. discriminate.
    + rewrite andb_true_iff, Z.eqb_eq, IH. split.
      * intros [-> [b ->]]. eauto.
      * intros [b E]. injection E as -> E. eauto.
Qed.

Lemma infixb_spec sub s : infixb sub s = true <-> exists a b, s = a ++ sub ++ b.
Proof.
  induction s as [|y s IH]; simpl; rewrite orb_true_iff, prefixb_spec.
  - split.
    + intros [[b E]|]; [|discriminate]. exists [], b. exact E.
    + intros [a [b E]]. left. destruct a; [exists b; exact E|discriminate].
  - rewrite IH. split.
    + intros [[b E]|[a [b E]]].
      * exists [], b. exact E.
      * exists (y :: a), b. rewrite E. reflexivity.
    + intros [a [b E]]. destruct a as [|z a].
      * left. exists b. exact E.
      * right. injection E as _ E. eauto.
Qed.

Lemma flat_map_fmt08b_length l :
  Forall byte_char l -> length (flat_map fmt08b l) = (8 * length l)%nat.
Proof.
  induction 1 as [|c l Hc _ IH]; [reflexivity|].
  simpl. rewrite length_app, fmt08b_length by exact Hc. rewrite IH. lia.
Qed.

Lemma nonnul_byte l : Forall (fun c => 1 <= c < 256) l -> Forall byte_char l.
Proof. apply Forall_impl. unfold byte_char. lia. Qed.

(** ** Lemmas on samples *)

Lemma to_uint16_range s : 0 <= to_uint16 s < 65536.
Proof. unfold to_uint16. apply Z.mod_pos_bound. lia. Qed.

Lemma to_uint16_to_int16 u : 0 <= u < 65536 -> to_uint16 (to_int16 u) = u.
Proof.
  intro Hu. unfold to_uint16, to_int16. destruct (Z.ltb_spec u 32768).
  - apply Z.mod_small. lia.
  - replace (u - 65536) with (u + (-1) * 65536) by lia.
    rewrite Z.mod_add by lia. apply Z.mod_small. lia.
Qed.

Lemma to_int16_to_uint16 s : in_int16 s -> to_int16 (to_uint16 s) = s.
Proof.
  unfold in_int16, to_int16, to_uint16. intro Hs.
  destruct (Z_lt_le_dec s 0) as [Hn|Hp].
  - replace (s mod 65536) with (s + 65536).
    + destruct (Z.ltb_spec (s + 65536) 32768); lia.
    + symmetry. replace s with ((s + 65536) + (-1) * 65536) at 1 by lia.
      rewrite Z.mod_add by lia. apply Z.mod_small. lia.
  - rewrite Z.mod_small by lia. destruct (Z.ltb_spec s 32768); lia.
Qed.

Lemma to_int16_range u : 0 <= u < 65536 -> in_int16 (to_int16 u).
Proof. unfold in_int16, to_int16. intro. destruct (Z.ltb_spec u 32768); lia. Qed.

(** Re-serialising an integer sample that is already a signed 16-bit
    value gives it back: [np.clip] and [np.int16] leave it alone. *)
Lemma write_sample_int s : in_int16 s -> trunc_int16 (clip16 (inject_Z s)) = s.
Proof.
  unfold in_int16, clip16, trunc_int16. intro Hs.
  destruct (Qle_bool (inject_Z s) (-32768 # 1)) eqn:E1.
  - apply Qle_bool_iff in E1. unfold Qle in E1. simpl in E1.
    assert (s = -32768) as -> by lia. reflexivity.
  - destruct (Qle_bool (32767 # 1) (inject_Z s)) eqn:E2.
    + apply Qle_bool_iff in E2. unfold Qle in E2. simpl in E2.
      assert (s = 32767) as -> by lia. reflexivity.
    + simpl. apply Z.quot_1_r.
Qed.

(** The bit update of [encode_lsb]: keep bits 1..15, set bit 0. *)
Lemma lsb_set f b :
  0 <= f < 65536 -> Z.lor (Z.land f 65534) (Z.b2z b) = 2 * (f / 2) + Z.b2z b.
Proof.
  intro Hf. apply Z.bits_inj'. intros n Hn.
  destruct (Z.eq_dec n 0) as [->|Hn0].
  - rewrite Z.lor_spec, Z.land_spec, Z.testbit_0_r.
    destruct b; simpl; rewrite ?andb_false_r; reflexivity.
  - replace n with (Z.succ (n - 1)) by lia.
    rewrite Z.lor_spec, Z.land_spec, Z.testbit_succ_r by lia.
    assert (Hb : Z.testbit (Z.b2z b) (Z.succ (n - 1)) = false)
      by (destruct b; simpl; [apply Z.bits_above_log2|apply Z.bits_0]; simpl; lia).
    rewrite Hb, orb_false_r.
    replace (f / 2) with (Z.shiftr f 1) by (rewrite Z.shiftr_div_pow2; reflexivity || lia).
    rewrite Z.shiftr_spec by lia. replace (n - 1 + 1) with (Z.succ (n - 1)) by lia.
    destruct (Z_lt_le_dec (n - 1) 15).
    + replace 65534 with (2 * Z.ones 15 + Z.b2z false) by reflexivity.
      rewrite Z.testbit_succ_r, Z.ones_spec_low by lia. apply andb_true_r.
    + rewrite (Z.bits_above_log2 f); [reflexivity|lia|].
      destruct (Z.eq_dec f 0) as [->|]; [simpl; lia|].
      assert (Z.log2 f < 16); [|lia].
      apply Z.log2_lt_pow2; lia.
Qed.

Lemma embed_range flat bits :
  Forall (fun u => 0 <= u < 65536) flat ->
  Forall (fun u => 0 <= u < 65536) (embed_bits flat bits).
Proof.
  revert flat. induction bits as [|b bs IH]; intros flat H; [destruct flat; exact H|].
  destruct H as [|f fs Hf Hfs]; simpl; constructor; auto.
  rewrite lsb_set by exact Hf.
  assert (0 <= f / 2) by (apply Z.div_pos; lia).
  assert (f / 2 < 32768) by (apply Z.div_lt_upper_bound; lia).
  destruct b; cbn [Z.b2z]; lia.
Qed.

Lemma embed_lsbs flat bits :
  Forall (fun u => 0 <= u < 65536) flat -> (length bits <= length flat)%nat ->
  map (fun x => Z.land x 1) (embed_bits flat bits)
  = map Z.b2z bits ++ map (fun x => Z.land x 1) (skipn (length bits) flat).
Proof.
  revert flat. induction bits as [|b bs IH]; intros flat H Hl; [destruct flat; reflexivity|].
  destruct H as [|f fs Hf Hfs]; simpl in *; [lia|].
  rewrite IH by (auto; lia). f_equal.
  rewrite lsb_set by exact Hf.
  change 1 with (Z.ones 1). rewrite Z.land_ones by lia.
  rewrite Z.mul_comm, Z.add_comm, Z.mod_add by lia.
  destruct b; reflexivity.
Qed.

(** ** LSB: what [encode_lsb] writes and what [decode_lsb] reads *)

Lemma uint16_all samples : Forall (fun u => 0 <= u < 65536) (map to_uint16 samples).
Proof. apply Forall_forall. intros u Hu. apply in_map_iff in Hu. destruct Hu as [s [<- _]]. apply to_uint16_range. Qed.

Lemma encode_lsb_out buf m :
  (length (frame_bits m) <= length (frames buf))%nat ->
  encode_lsb buf m =
  Some (mkWav (params buf)
          (map to_int16 (embed_bits (map to_uint16 (frames buf)) (frame_bits m)))).
Proof.
  intro Hl. unfold encode_lsb, read_wav_bytes.
  rewrite length_map. destruct (Nat.ltb_spec (length (frames buf)) (length (frame_bits m))); [lia|].
  unfold write_wav_bytes. do 2 f_equal. rewrite map_map. apply map_ext_in.
  intros u Hu. apply write_sample_int, to_int16_range.
  pose proof (embed_range _ (frame_bits m) (uint16_all (frames buf))) as HF.
  rewrite Forall_forall in HF. exact (HF u Hu).
Qed.

Lemma encode_lsb_none buf m :
  (length (frames buf) < length (frame_bits m))%nat -> encode_lsb buf m = None.
Proof.
  intro Hl. unfold encode_lsb, read_wav_bytes. rewrite length_map.
  destruct (Nat.ltb_spec (length (frames buf)) (length (frame_bits m))); [reflexivity|lia].
Qed.

Lemma decode_lsb_bits w :
  decode_lsb w =
  lsb_loop (range8 (length (frames w))) (map (fun s => Z.land (to_uint16 s) 1) (frames w)) [].
Proof. unfold decode_lsb, read_wav_bytes. rewrite !length_map, map_map. reflexivity. Qed.

Lemma firstn_byte c rest :
  0 <= c < 256 -> firstn 8 (map Z.b2z (fmt08b c) ++ rest) = map Z.b2z (fmt08b c).
Proof.
  intro Hc. rewrite firstn_app, length_map, fmt08b_length by exact Hc.
  rewrite Nat.sub_diag, firstn_O, app_nil_r. apply firstn_all2.
  rewrite length_map, fmt08b_length by exact Hc. lia.
Qed.

Lemma skipn_byte c rest :
  0 <= c < 256 -> skipn 8 (map Z.b2z (fmt08b c) ++ rest) = rest.
Proof.
  intro Hc. rewrite skipn_app, length_map, fmt08b_length by exact Hc.
  rewrite Nat.sub_diag, skipn_all2; [reflexivity|].
  rewrite length_map, fmt08b_length by exact Hc. lia.
Qed.

(** [decode_lsb]'s loop reads the characters [q] back and stops at the
    first point where what it has read ends with the terminator. *)
Lemma lsb_loop_found q : forall acc n rest,
  q <> [] -> Forall (fun c => 1 <= c < 256) q -> (length q <= n)%nat ->
  (forall k, (0 < k < length q)%nat -> ends_with (acc ++ firstn k q) terminator = false) ->
  ends_with (acc ++ q) terminator = true ->
  lsb_loop n (map Z.b2z (flat_map fmt08b q) ++ rest) acc
  = firstn (length (acc ++ q) - 3) (acc ++ q).
Proof.
  induction q as [|c q IH]; intros acc n rest Hne Hq Hn Hpre Hend; [contradiction|].
  inversion Hq as [|? ? Hc Hq']; subst.
  destruct n as [|n]; [simpl in Hn; lia|].
  cbn [lsb_loop flat_map]. rewrite map_app, <- app_assoc.
  rewrite firstn_byte by lia. rewrite length_map, fmt08b_length by lia.
  cbn [Nat.ltb Nat.leb]. rewrite fmt08b_value by lia.
  destruct (Z.eqb_spec c 0); [lia|].
  destruct q as [|c' q].
  - rewrite Hend. reflexivity.
  - specialize (Hpre 1%nat ltac:(simpl; lia)) as H1. simpl in H1. rewrite H1.
    rewrite skipn_byte by lia.
    replace (acc ++ c :: c' :: q) with ((acc ++ [c]) ++ c' :: q)
      by (rewrite <- app_assoc; reflexivity).
    apply IH; auto.
    + discriminate.
    + simpl in Hn |- *. lia.
    + intros k Hk. rewrite <- app_assoc.
      exact (Hpre (S k) ltac:(simpl in Hk |- *; lia)).
    + rewrite <- app_assoc. exact Hend.
Qed.

Lemma embed_bits_length flat bits :
  (length bits <= length flat)%nat -> length (embed_bits flat bits) = length flat.
Proof.
  revert flat. induction bits as [|b bs IH]; intros [|f fs] Hl; simpl in *; try rewrite IH; lia.
Qed.

Lemma range8_lower k len : (8 * k <= len)%nat -> (k <= range8 len)%nat.
Proof.
  intro H. unfold range8.
  rewrite <- (Nat.div_mul k 8) at 1 by lia.
  apply Nat.Div0.div_le_mono; lia.
Qed.

Lemma firstn_term_prefix p k :
  (k <= length p + 2)%nat -> firstn k (p ++ terminator) = firstn k (p ++ [35; 35]).
Proof.
  intro Hk. rewrite !firstn_app. f_equal.
  destruct (k - length p)%nat as [|[|[|j]]] eqn:E; try reflexivity. lia.
Qed.

(** Round trip through the first terminator: [decode_lsb] returns the
    characters of [message + "###"] before the first ["###"] in them. *)
Lemma lsb_roundtrip_first buf m p r :
  Forall (fun c => 1 <= c < 256) m ->
  (length (frame_bits m) <= length (frames buf))%nat ->
  m ++ terminator = p ++ terminator ++ r ->
  infixb terminator (p ++ [35; 35]) = false ->
  exists out, encode_lsb buf m = Some out /\ decode_lsb out = p.
Proof.
  intros Hm Hcap Hsplit Hfirst.
  rewrite encode_lsb_out by exact Hcap. eexists; split; [reflexivity|].
  rewrite decode_lsb_bits. cbn [frames].
  set (E := embed_bits (map to_uint16 (frames buf)) (frame_bits m)).
  assert (HE : Forall (fun u => 0 <= u < 65536) E) by apply embed_range, uint16_all.
  rewrite map_map.
  replace (map (fun x => Z.land (to_uint16 (to_int16 x)) 1) E)
    with (map (fun x => Z.land x 1) E).
  2:{ apply map_ext_in. intros u Hu. rewrite Forall_forall in HE.
      rewrite to_uint16_to_int16 by exact (HE u Hu). reflexivity. }
  unfold E. rewrite embed_lsbs by (try apply uint16_all; rewrite length_map; exact Hcap).
  assert (Hall : Forall (fun c => 1 <= c < 256) (p ++ terminator ++ r)).
  { rewrite <- Hsplit. apply Forall_app. split; [exact Hm|].
    repeat constructor; lia. }
  rewrite app_assoc in Hall. apply Forall_app in Hall. destruct Hall as [Hq Hr].
  assert (Hcap2 : (length (flat_map fmt08b (p ++ terminator) ++ flat_map fmt08b r)
                   <= length (frames buf))%nat).
  { unfold frame_bits in Hcap. rewrite Hsplit, app_assoc, flat_map_app in Hcap. exact Hcap. }
  unfold frame_bits. rewrite Hsplit, app_assoc, flat_map_app, map_app, <- app_assoc.
  rewrite length_map.
  rewrite (lsb_loop_found (p ++ terminator) []).
  { simpl. rewrite length_app. simpl.
    replace (length p + 3 - 3)%nat with (length p) by lia.
    rewrite firstn_app, Nat.sub_diag, firstn_all, app_nil_r. reflexivity. }
  - destruct p; discriminate.
  - exact Hq.
  - apply range8_lower. rewrite embed_bits_length by (rewrite length_map; exact Hcap2).
    rewrite length_map. rewrite length_app in Hcap2.
    rewrite !flat_map_fmt08b_length in Hcap2
      by (apply nonnul_byte; assumption).
    lia.
  - intros k Hk. simpl. apply not_true_is_false. intro He.
    apply ends_with_spec in He. destruct He as [a Ha].
    rewrite length_app in Hk. simpl in Hk.
    rewrite firstn_term_prefix in Ha by lia.
    assert (infixb terminator (p ++ [35; 35]) = true); [|congruence].
    apply infixb_spec. exists a, (skipn k (p ++ [35; 35])).
    rewrite app_assoc, <- Ha. symmetry. apply firstn_skipn.
  - apply ends_with_spec. exists p. reflexivity.
Qed.

Lemma infixb_app_r s l t : infixb s l = true -> infixb s (l ++ t) = true.
Proof.
  rewrite !infixb_spec. intros [a [b ->]]. exists a, (b ++ t).
  rewrite <- !app_assoc. reflexivity.
Qed.

(** What [decode_lsb]'s loop returns: no ["###"] inside, unless it is the
    no-message outcome. *)
Lemma lsb_loop_clean n : forall bits acc,
  infixb terminator acc = false ->
  lsb_loop n bits acc = no_message \/ infixb terminator (lsb_loop n bits acc) = false.
Proof.
  induction n as [|n IH]; intros bits acc Hacc; [left; reflexivity|].
  cbn [lsb_loop].
  destruct (Nat.ltb _ _); [left; reflexivity|].
  destruct (_ =? 0); [left; reflexivity|].
  set (c := bits_value (firstn 8 bits)).
  destruct (ends_with (acc ++ [c]) terminator) eqn:He.
  - right. apply ends_with_spec in He. destruct He as [a Ha].
    assert (Hacc' : acc = a ++ [35; 35] /\ c = 35).
    { apply app_inj_tail. rewrite <- app_assoc. exact Ha. }
    destruct Hacc' as [-> _].
    rewrite Ha, length_app. simpl.
    replace (length a + 3 - 3)%nat with (length a) by lia.
    rewrite firstn_app, Nat.sub_diag, firstn_all, app_nil_r.
    apply not_true_is_false. intro Hin. apply (infixb_app_r _ _ [35; 35]) in Hin.
    congruence.
  - apply IH. apply not_true_is_false. intro Hin.
    apply infixb_spec in Hin. destruct Hin as [x [y Hxy]].
    destruct y as [|z y] using rev_ind.
    + rewrite app_nil_r in Hxy.
      assert (ends_with (acc ++ [c]) terminator = true) by (apply ends_with_spec; eauto).
      congruence.
    + rewrite !app_assoc in Hxy. apply app_inj_tail in Hxy. destruct Hxy as [Hxy _].
      assert (infixb terminator acc = true); [|congruence].
      apply infixb_spec. exists x, y. rewrite Hxy, <- !app_assoc. reflexivity.
Qed.

(** [encode_lsb] accepts exactly the messages whose framed bits fit. *)
Lemma encode_lsb_some_iff buf m :
  (exists out, encode_lsb buf m = Some out) <->
  (length (frame_bits m) <= length (frames buf))%nat.
Proof.
  split.
  - intros [out E]. destruct (Nat.le_gt_cases (length (frame_bits m)) (length (frames buf)))
      as [|Hlt]; [assumption|]. rewrite encode_lsb_none in E by exact Hlt. discriminate.
  - intro Hl. rewrite encode_lsb_out by exact Hl. eauto.
Qed.

Lemma nth_embed_in flat bits i :
  (length bits <= length flat)%nat -> (i < length bits)%nat ->
  nth i (embed_bits flat bits) 0
  = Z.lor (Z.land (nth i flat 0) 65534) (Z.b2z (nth i bits false)).
Proof.
  revert flat i. induction bits as [|b bs IH]; intros [|f fs] i Hl Hi; simpl in *; try lia.
  destruct i; [reflexivity|]. apply IH; lia.
Qed.

Lemma nth_embed_out flat bits i :
  (length bits <= i)%nat -> nth i (embed_bits flat bits) 0 = nth i flat 0.
Proof.
  revert flat i. induction bits as [|b bs IH]; intros flat i Hi.
  - destruct flat; reflexivity.
  - destruct flat as [|f fs]; simpl.
    + destruct i; reflexivity.
    + destruct i; simpl in Hi; [lia|]. apply IH; lia.
Qed.

Lemma nth_map0 (f : Z -> Z) l i : f 0 = 0 -> nth i (map f l) 0 = f (nth i l 0).
Proof. intro H0. rewrite <- H0 at 1. apply map_nth. Qed.

Lemma nth_in_int16 l i : Forall in_int16 l -> in_int16 (nth i l 0).
Proof.
  intro H. destruct (Nat.lt_ge_cases i (length l)).
  - rewrite Forall_forall in H. apply H, nth_In. assumption.
  - rewrite nth_overflow by assumption. unfold in_int16. lia.
Qed.

Lemma const_wav_int16 v n : in_int16 v -> Forall in_int16 (frames (const_wav v n)).
Proof.
  intro Hv. apply Forall_forall. intros x Hx. apply repeat_spec in Hx. subst. exact Hv.
Qed.

(** ** LSB claims *)

(** C1 (amended): LSB round trip.  For an ASCII message without NUL
    characters, with no ["###"] inside and not ending in ['#'] (that is, no
    ["###"] in [message + "##"]), whose framed bits fit the buffer,
    [decode_lsb] of [encode_lsb buffer message] is the message. *)
Theorem lsb_roundtrip buf m :
  Forall (fun c => 1 <= c < 128) m ->
  infixb terminator (m ++ [35; 35]) = false ->
  (8 * (length m + 3) <= length (frames buf))%nat ->
  exists out, encode_lsb buf m = Some out /\ decode_lsb out = m.
Proof.
  intros Hm Hfirst Hcap.
  assert (Hm' : Forall (fun c => 1 <= c < 256) m) by (eapply Forall_impl; [|exact Hm]; simpl; lia).
  apply (lsb_roundtrip_first buf m m []); [exact Hm'| | |exact Hfirst].
  - rewrite frame_bits_length by (apply nonnul_byte; exact Hm'). exact Hcap.
  - rewrite app_nil_r. reflexivity.
Qed.

Lemma lsb_roundtrip_witness :
  exists out, encode_lsb (const_wav 0 40) (codes "HI") = Some out /\ decode_lsb out = codes "HI".
Proof.
  apply lsb_roundtrip.
  - cbv. repeat constructor; discriminate.
  - reflexivity.
  - simpl. lia.
Defined.

(** C1 as stated fails: the ASCII message ["#"] fits a 32-sample buffer
    exactly, but decodes to the empty string (its ['#'] and the
    terminator's first two form the first ["###"]). *)
Lemma lsb_roundtrip_hash_counterexample :
  ~ (forall buf m, Forall ascii_char m ->
       (8 * (length m + 3) <= length (frames buf))%nat ->
       exists out, encode_lsb buf m = Some out /\ decode_lsb out = m).
Proof.
  intro H. destruct (H (const_wav 0 32) [35]) as [out [E D]].
  - constructor; [unfold ascii_char; lia|constructor].
  - simpl. lia.
  - vm_compute in E. injection E as <-. vm_compute in D. discriminate.
Qed.

(** C2 (amended): first-occurrence terminator detection.  Write
    [message + "###"] as [p + "###" + r] with no ["###"] in [p + "##"]
    (the first ["###"]).  For a message of characters [1..255] that fits,
    [decode_lsb (encode_lsb buffer message)] is [p]; when the message itself
    contains ["###"], [p] is strictly shorter than the message. *)
Theorem lsb_first_terminator buf m p r :
  Forall (fun c => 1 <= c < 256) m ->
  (8 * (length m + 3) <= length (frames buf))%nat ->
  m ++ terminator = p ++ terminator ++ r ->
  infixb terminator (p ++ [35; 35]) = false ->
  exists out, encode_lsb buf m = Some out /\ decode_lsb out = p /\
              (infixb terminator m = true -> (length p < length m)%nat).
Proof.
  intros Hm Hcap Hsplit Hfirst.
  destruct (lsb_roundtrip_first buf m p r) as [out [E D]]; [exact Hm| |exact Hsplit|exact Hfirst|].
  { rewrite frame_bits_length by (apply nonnul_byte; exact Hm). exact Hcap. }
  exists out. split; [exact E|]. split; [exact D|].
  intro Hin. destruct r as [|z r].
  - rewrite app_nil_r in Hsplit. apply app_inv_tail in Hsplit. subst p.
    apply (infixb_app_r _ _ [35; 35]) in Hin. congruence.
  - apply (f_equal (@length Z)) in Hsplit.
    rewrite !length_app in Hsplit. simpl in Hsplit. lia.
Qed.

Lemma lsb_first_terminator_witness :
  exists out, encode_lsb (const_wav 0 64) (codes "a###b") = Some out /\
              decode_lsb out = codes "a" /\
              (infixb terminator (codes "a###b") = true ->
               (length (codes "a") < length (codes "a###b"))%nat).
Proof.
  apply (lsb_first_terminator (const_wav 0 64) (codes "a###b") (codes "a") (codes "b###")).
  - cbv. repeat constructor; discriminate.
  - simpl. lia.
  - reflexivity.
  - reflexivity.
Defined.

(** C2 as stated fails: the message ["a###b"] decodes to ["a"]. *)
Lemma lsb_sentinel_counterexample :
  ~ (forall buf m, infixb terminator m = true ->
       (8 * (length m + 3) <= length (frames buf))%nat ->
       exists out, encode_lsb buf m = Some out /\ decode_lsb out = m).
Proof.
  intro H. destruct (H (const_wav 0 64) (codes "a###b")) as [out [E D]].
  - reflexivity.
  - simpl. lia.
  - vm_compute in E. injection E as <-. vm_compute in D. discriminate.
Qed.

(** C4: LSB capacity boundary.  For a message of byte characters,
    [encode_lsb] returns a buffer when [8 * (len(message) + 3)] is at most
    the number of samples (equality included) and [None] when it exceeds
    it; the model is total, no exception. *)
Theorem lsb_capacity buf m :
  Forall byte_char m ->
  ((8 * (length m + 3) <= length (frames buf))%nat -> exists out, encode_lsb buf m = Some out) /\
  ((length (frames buf) < 8 * (length m + 3))%nat -> encode_lsb buf m = None).
Proof.
  intro Hm. rewrite <- frame_bits_length by exact Hm. split.
  - apply encode_lsb_some_iff.
  - apply encode_lsb_none.
Qed.

Lemma lsb_capacity_witness :
  (exists out, encode_lsb (const_wav 0 40) (codes "HI") = Some out) /\
  encode_lsb (const_wav 0 39) (codes "HI") = None.
Proof.
  split.
  - apply (proj1 (lsb_capacity (const_wav 0 40) (codes "HI") ltac:(cbv; repeat constructor; discriminate))).
    simpl. lia.
  - apply (proj2 (lsb_capacity (const_wav 0 39) (codes "HI") ltac:(cbv; repeat constructor; discriminate))).
    simpl. lia.
Defined.

(** C6: LSB frame effect.  On a buffer of 16-bit samples, an accepted
    [encode_lsb] keeps the format parameters and the number of samples;
    sample [i] below the framed bit length keeps its upper 15 bits (as an
    unsigned 16-bit pattern) and carries bit [i] of the frame in bit 0;
    every later sample is unchanged. *)
Theorem lsb_frame_effect buf m out :
  Forall in_int16 (frames buf) ->
  encode_lsb buf m = Some out ->
  params out = params buf /\
  length (frames out) = length (frames buf) /\
  (forall i, (i < length (frame_bits m))%nat ->
     Z.shiftr (to_uint16 (nth i (frames out) 0)) 1 = Z.shiftr (to_uint16 (nth i (frames buf) 0)) 1 /\
     Z.testbit (to_uint16 (nth i (frames out) 0)) 0 = nth i (frame_bits m) false) /\
  (forall i, (length (frame_bits m) <= i)%nat -> nth i (frames out) 0 = nth i (frames buf) 0).
Proof.
  intros Hwf E.
  assert (Hcap : (length (frame_bits m) <= length (frames buf))%nat)
    by (apply encode_lsb_some_iff; eauto).
  rewrite encode_lsb_out in E by exact Hcap. injection E as <-. cbn [params frames].
  set (flat := map to_uint16 (frames buf)).
  assert (Hfl : (length (frame_bits m) <= length flat)%nat) by (unfold flat; rewrite length_map; exact Hcap).
  assert (HE := embed_range flat (frame_bits m) (uint16_all (frames buf))).
  split; [reflexivity|]. split.
  { rewrite length_map, embed_bits_length by exact Hfl. apply length_map. }
  split.
  - intros i Hi. rewrite nth_map0 by reflexivity.
    rewrite to_uint16_to_int16.
    2:{ destruct (Nat.lt_ge_cases i (length (embed_bits flat (frame_bits m)))).
        - rewrite Forall_forall in HE. apply HE, nth_In. assumption.
        - rewrite nth_overflow by assumption. lia. }
    rewrite nth_embed_in by assumption.
    assert (Hf : 0 <= nth i flat 0 < 65536).
    { unfold flat. rewrite nth_map0 by reflexivity. apply to_uint16_range. }
    rewrite lsb_set by exact Hf. split.
    + rewrite !Z.shiftr_div_pow2 by lia. change (2 ^ 1) with 2.
      rewrite (Z.mul_comm 2), Z.div_add_l by lia.
      assert (Z.b2z (nth i (frame_bits m) false) / 2 = 0) as ->
        by (destruct (nth i (frame_bits m) false); reflexivity).
      rewrite Z.add_0_r. unfold flat. rewrite nth_map0 by reflexivity. reflexivity.
    + apply Z.testbit_0_r.
  - intros i Hi. rewrite nth_map0 by reflexivity.
    rewrite nth_embed_out by exact Hi. unfold flat. rewrite nth_map0 by reflexivity.
    apply to_int16_to_uint16, nth_in_int16, Hwf.
Qed.

Lemma lsb_frame_effect_witness :
  exists out, encode_lsb (const_wav 3 40) (codes "HI") = Some out /\
              params out = params (const_wav 3 40) /\
              length (frames out) = length (frames (const_wav 3 40)).
Proof.
  destruct (encode_lsb (const_wav 3 40) (codes "HI")) as [out|] eqn:E;
    [|vm_compute in E; discriminate].
  exists out. split; [reflexivity|].
  destruct (lsb_frame_effect (const_wav 3 40) (codes "HI") out
              (const_wav_int16 3 40 ltac:(unfold in_int16; lia)) E) as [Hp [Hl _]].
  split; assumption.
Defined.

(** C10: whenever [decode_lsb] returns something other than
    ["No hidden message found"], the returned string has no ["###"] in it. *)
Theorem lsb_decode_no_terminator w :
  decode_lsb w <> no_message -> infixb terminator (decode_lsb w) = false.
Proof.
  intro H. unfold decode_lsb.
  destruct (lsb_loop_clean (range8 (length (map (fun s => Z.land s 1) (map to_uint16 (fst (read_wav_bytes w))))))
              (map (fun s => Z.land s 1) (map to_uint16 (fst (read_wav_bytes w)))) [] eq_refl)
    as [E|E].
  - exfalso. apply H. exact E.
  - exact E.
Qed.

Lemma lsb_decode_no_terminator_witness :
  decode_lsb (mkWav (mono16 24) (map Z.b2z (frame_bits []))) = [] /\
  infixb terminator (decode_lsb (mkWav (mono16 24) (map Z.b2z (frame_bits [])))) = false.
Proof.
  split; [reflexivity|].
  apply lsb_decode_no_terminator. vm_compute. discriminate.
Defined.

(** ** float32 rounding *)

Lemma rne_div_bounds a D : 0 < D -> a / D <= rne_div a D <= a / D + 1.
Proof.
  intro HD. unfold rne_div.
  destruct (2 * (a mod D) <? D), (D <? 2 * (a mod D)), (Z.even (a / D)); lia.
Qed.

Lemma rne_div_mono a b D : 0 < D -> a <= b -> rne_div a D <= rne_div b D.
Proof.
  intros HD Hab.
  pose proof (Z.div_le_mono a b D HD Hab) as Hq.
  destruct (Z.eq_dec (a / D) (b / D)) as [E|E].
  - pose proof (Z.div_mod a D ltac:(lia)). pose proof (Z.div_mod b D ltac:(lia)).
    pose proof (Z.mod_pos_bound a D HD). pose proof (Z.mod_pos_bound b D HD).
    assert (Hr : a mod D <= b mod D) by nia.
    unfold rne_div. rewrite E.
    destruct (Z.ltb_spec (2 * (a mod D)) D); destruct (Z.ltb_spec (2 * (b mod D)) D);
    destruct (Z.ltb_spec D (2 * (a mod D))); destruct (Z.ltb_spec D (2 * (b mod D)));
    destruct (Z.even (b / D)); lia.
  - pose proof (rne_div_bounds a D HD). pose proof (rne_div_bounds b D HD). lia.
Qed.

Lemma rne_div_scale a D c : 0 < c -> 0 < D -> rne_div (a * c) (D * c) = rne_div a D.
Proof.
  intros Hc HD. unfold rne_div.
  rewrite Z.div_mul_cancel_r by lia. rewrite Z.mul_mod_distr_r by lia.
  destruct (Z.ltb_spec (2 * (a mod D)) D); destruct (Z.ltb_spec (2 * (a mod D * c)) (D * c));
    try nia;
  destruct (Z.ltb_spec D (2 * (a mod D))); destruct (Z.ltb_spec (D * c) (2 * (a mod D * c)));
    try nia; reflexivity.
Qed.

Lemma rne_div_exact q D : 0 < D -> rne_div (q * D) D = q.
Proof.
  intro HD. unfold rne_div. rewrite Z.mod_mul, Z.div_mul by lia.
  destruct (Z.ltb_spec (2 * 0) D); [reflexivity|lia].
Qed.

Lemma round32_0 d : round32 0 d = 0.
Proof. reflexivity. Qed.

Lemma round32_opp x d : round32 (- x) d = - round32 x d.
Proof. unfold round32. rewrite Z.abs_opp, Z.sgn_opp. ring. Qed.

Lemma round32_scale x d c : 0 < c -> 0 < d -> round32 (x * c) (d * c) = round32 x d.
Proof.
  intros Hc Hd. unfold round32.
  rewrite Z.abs_mul, (Z.abs_eq c) by lia.
  rewrite Z.div_mul_cancel_r by lia.
  rewrite Z.sgn_mul, (Z.sgn_pos c Hc), Z.mul_1_r.
  replace (d * c * 2 ^ Z.max (Z.log2 (Z.abs x / d) - 23) 0)
    with (d * 2 ^ Z.max (Z.log2 (Z.abs x / d) - 23) 0 * c) by ring.
  rewrite rne_div_scale; [reflexivity|lia|].
  apply Z.mul_pos_pos; [lia|apply Z.pow_pos_nonneg; lia].
Qed.

(** The magnitude part of [round32]. *)
Definition rmag (a d : Z) : Z :=
  let sh := Z.max (Z.log2 (a / d) - 23) 0 in rne_div a (d * 2 ^ sh) * 2 ^ sh.

Lemma rmag_nonneg a d : 0 <= a -> 0 < d -> 0 <= rmag a d.
Proof.
  intros Ha Hd. unfold rmag.
  set (sh := Z.max (Z.log2 (a / d) - 23) 0).
  assert (0 < 2 ^ sh) by (apply Z.pow_pos_nonneg; lia).
  pose proof (rne_div_bounds a (d * 2 ^ sh) ltac:(nia)).
  assert (0 <= a / (d * 2 ^ sh)) by (apply Z.div_pos; nia).
  nia.
Qed.

Lemma rmag_upper a d : 0 <= a -> 0 < d -> rmag a d <= 2 ^ (Z.log2 (a / d) + 1).
Proof.
  intros Ha Hd. unfold rmag.
  set (L := Z.log2 (a / d)).
  set (sh := Z.max (L - 23) 0).
  assert (HL : 0 <= L) by apply Z.log2_nonneg.
  assert (Hup : a < d * 2 ^ (L + 1)).
  { destruct (Z.eq_dec (a / d) 0) as [E|E].
    - unfold L. rewrite E. cbn. pose proof (Z.div_mod a d ltac:(lia)).
      pose proof (Z.mod_pos_bound a d Hd). nia.
    - assert (0 < a / d) by (pose proof (Z.div_pos a d Ha Hd); lia).
      destruct (Z.log2_spec (a / d) H) as [_ H2]. fold L in H2.
      pose proof (Z.div_mod a d ltac:(lia)). pose proof (Z.mod_pos_bound a d Hd).
      nia. }
  assert (Hsh : 0 <= sh <= L) by (unfold sh; lia).
  assert (Hp : 2 ^ (L + 1) = 2 ^ (L + 1 - sh) * 2 ^ sh)
    by (rewrite <- Z.pow_add_r by lia; f_equal; lia).
  assert (0 < 2 ^ sh) by (apply Z.pow_pos_nonneg; lia).
  assert (Hq : a / (d * 2 ^ sh) < 2 ^ (L + 1 - sh)).
  { apply Z.div_lt_upper_bound; [nia|]. rewrite Hp in Hup. nia. }
  pose proof (rne_div_bounds a (d * 2 ^ sh) ltac:(nia)).
  rewrite Hp. apply Z.mul_le_mono_nonneg_r; lia.
Qed.

Lemma rmag_lower a d : 0 < d -> d <= a -> 2 ^ Z.log2 (a / d) <= rmag a d.
Proof.
  intros Hd Ha. unfold rmag.
  set (L := Z.log2 (a / d)).
  set (sh := Z.max (L - 23) 0).
  assert (H1 : 0 < a / d) by (apply Z.div_str_pos; lia).
  destruct (Z.log2_spec (a / d) H1) as [H2 _]. fold L in H2.
  assert (HL : 0 <= L) by apply Z.log2_nonneg.
  assert (Hsh : 0 <= sh <= L) by (unfold sh; lia).
  assert (Hp : 2 ^ L = 2 ^ (L - sh) * 2 ^ sh)
    by (rewrite <- Z.pow_add_r by lia; f_equal; lia).
  assert (0 < 2 ^ sh) by (apply Z.pow_pos_nonneg; lia).
  assert (Hq : 2 ^ (L - sh) <= a / (d * 2 ^ sh)).
  { apply Z.div_le_lower_bound; [nia|].
    pose proof (Z.mul_div_le a d Hd). rewrite Hp in H2. nia. }
  pose proof (rne_div_bounds a (d * 2 ^ sh) ltac:(nia)).
  rewrite Hp. apply Z.mul_le_mono_nonneg_r; lia.
Qed.

Lemma rmag_mono a b d : 0 <= a -> a <= b -> 0 < d -> rmag a d <= rmag b d.
Proof.
  intros Ha Hab Hd.
  assert (HL : Z.log2 (a / d) <= Z.log2 (b / d))
    by (apply Z.log2_le_mono, Z.div_le_mono; lia).
  destruct (Z.eq_dec (Z.max (Z.log2 (a / d) - 23) 0) (Z.max (Z.log2 (b / d) - 23) 0)) as [E|E].
  - unfold rmag. rewrite E.
    apply Z.mul_le_mono_nonneg_r; [apply Z.pow_nonneg; lia|].
    apply rne_div_mono; [|exact Hab].
    apply Z.mul_pos_pos; [lia|apply Z.pow_pos_nonneg; lia].
  - assert (Hb24 : 24 <= Z.log2 (b / d)) by lia.
    assert (Hbd : d <= b).
    { destruct (Z.lt_ge_cases b d) as [H|H]; [|exact H].
      rewrite (Z.div_small b d) in Hb24 by lia. cbn in Hb24. lia. }
    pose proof (rmag_upper a d Ha Hd). pose proof (rmag_lower b d Hd Hbd).
    assert (2 ^ (Z.log2 (a / d) + 1) <= 2 ^ Z.log2 (b / d))
      by (apply Z.pow_le_mono_r; lia).
    lia.
Qed.

Lemma round32_rmag x d : round32 x d = Z.sgn x * rmag (Z.abs x) d.
Proof. reflexivity. Qed.

Lemma round32_mono x y d : 0 < d -> x <= y -> round32 x d <= round32 y d.
Proof.
  intros Hd Hxy. rewrite !round32_rmag.
  destruct (Z.lt_trichotomy x 0) as [Hx|[Hx|Hx]];
  destruct (Z.lt_trichotomy y 0) as [Hy|[Hy|Hy]]; try lia; subst.
  - rewrite (Z.sgn_neg x Hx), (Z.sgn_neg y Hy), (Z.abs_neq x), (Z.abs_neq y) by lia.
    pose proof (rmag_mono (- y) (- x) d ltac:(lia) ltac:(lia) Hd). lia.
  - rewrite (Z.sgn_neg x Hx). change (Z.sgn 0) with 0. pose proof (rmag_nonneg (Z.abs x) d ltac:(lia) Hd). lia.
  - rewrite (Z.sgn_neg x Hx), (Z.sgn_pos y Hy).
    pose proof (rmag_nonneg (Z.abs x) d ltac:(lia) Hd).
    pose proof (rmag_nonneg (Z.abs y) d ltac:(lia) Hd). lia.
  - rewrite (Z.sgn_pos y Hy). change (Z.sgn 0) with 0. pose proof (rmag_nonneg (Z.abs y) d ltac:(lia) Hd). lia.
  - rewrite (Z.sgn_pos x Hx), (Z.sgn_pos y Hy), !Z.abs_eq by lia.
    pose proof (rmag_mono x y d ltac:(lia) Hxy Hd). lia.
Qed.

Lemma round32_nonneg x d : 0 < d -> 0 <= x -> 0 <= round32 x d.
Proof. intros. rewrite <- (round32_0 d). apply round32_mono; assumption. Qed.

Lemma f32_of_Q_mono x y : (x <= y)%Q -> f32_of_Q x <= f32_of_Q y.
Proof.
  intro H. unfold f32_of_Q, Qle in *.
  rewrite <- (round32_scale (Qnum x * 2 ^ 149) (Zpos (Qden x)) (Zpos (Qden y))) by lia.
  rewrite <- (round32_scale (Qnum y * 2 ^ 149) (Zpos (Qden y)) (Zpos (Qden x))) by lia.
  rewrite (Z.mul_comm (Zpos (Qden y)) (Zpos (Qden x))).
  apply round32_mono; [lia|].
  assert (0 < 2 ^ 149) by (apply Z.pow_pos_nonneg; lia). nia.
Qed.

(** Integers below [2^24] in magnitude are float32 values. *)
Lemma round32_small z : Z.abs z < 2 ^ 24 -> round32 z 1 = z.
Proof.
  intro H. unfold round32. rewrite Z.div_1_r.
  replace (Z.max (Z.log2 (Z.abs z) - 23) 0) with 0.
  - rewrite Z.pow_0_r, !Z.mul_1_r.
    replace (rne_div (Z.abs z) 1) with (Z.abs z)
      by (rewrite <- (Z.mul_1_r (Z.abs z)) at 2; rewrite rne_div_exact by lia; reflexivity).
    rewrite Z.mul_comm. apply Z.abs_sgn.
  - destruct (Z.eq_dec z 0) as [->|Hz]; [reflexivity|].
    assert (Z.log2 (Z.abs z) < 24) by (apply Z.log2_lt_pow2; lia). lia.
Qed.

Lemma round32_int z : round32 (z * 2 ^ 149) 1 = round32 z 1 * 2 ^ 149.
Proof.
  destruct (Z.eq_dec z 0) as [->|Hz]; [reflexivity|].
  unfold round32. rewrite !Z.div_1_r, Z.abs_mul, (Z.abs_eq (2 ^ 149)) by lia.
  rewrite Z.sgn_mul. change (Z.sgn (2 ^ 149)) with 1.
  assert (Ha : 0 < Z.abs z) by lia.
  rewrite Z.log2_mul_pow2 by lia.
  set (L := Z.log2 (Z.abs z)).
  assert (HL : 0 <= L) by apply Z.log2_nonneg.
  destruct (Z.le_gt_cases 23 L) as [H23|H23].
  - replace (Z.max (149 + L - 23) 0) with (Z.max (L - 23) 0 + 149) by lia.
    rewrite Z.pow_add_r by lia.
    rewrite (Z.mul_assoc 1), rne_div_scale by (try apply Z.pow_pos_nonneg; lia). ring.
  - replace (Z.max (L - 23) 0) with 0 by lia.
    replace (Z.max (149 + L - 23) 0) with (L + 126) by lia.
    replace (Z.abs z * 2 ^ 149) with ((Z.abs z * 2 ^ (23 - L)) * (1 * 2 ^ (L + 126)))
      by (rewrite Z.mul_1_l, <- Z.mul_assoc, <- Z.pow_add_r by lia; f_equal; f_equal; lia).
    rewrite rne_div_exact by (apply Z.mul_pos_pos; [lia|apply Z.pow_pos_nonneg; lia]).
    rewrite Z.pow_0_r, !Z.mul_1_r.
    replace (rne_div (Z.abs z) 1) with (Z.abs z)
      by (rewrite <- (Z.mul_1_r (Z.abs z)) at 2; rewrite rne_div_exact by lia; reflexivity).
    rewrite <- Z.mul_assoc, <- Z.pow_add_r by lia.
    replace (23 - L + (L + 126)) with 149 by lia.
    ring.
Qed.

Lemma fold_hom (add1 add2 : Z -> Z -> Z) (h : Z -> Z) (g1 g2 : nat -> Z) :
  (forall x y, h (add1 x y) = add2 (h x) (h y)) -> (forall i, g2 i = h (g1 i)) ->
  forall s x, fold_left (fun acc i => add2 acc (g2 i)) s (h x)
              = h (fold_left (fun acc i => add1 acc (g1 i)) s x).
Proof.
  intros Hh Hg. induction s as [|i s IH]; intro x; [reflexivity|].
  cbn [fold_left]. rewrite Hg, <- Hh. apply IH.
Qed.

Lemma pw_block_hom add1 add2 h a :
  h 0 = 0 -> (forall x y, h (add1 x y) = add2 (h x) (h y)) ->
  pw_block add2 (map h a) = h (pw_block add1 a).
Proof.
  intros H0 Hh. unfold pw_block. rewrite length_map.
  rewrite !(nth_map0 h a) by exact H0.
  rewrite !(fold_hom add1 add2 h (fun i => nth (i + _) a 0) (fun i => nth (i + _) (map h a) 0) Hh)
    by (intro; apply nth_map0, H0).
  rewrite <- !Hh.
  apply (fold_hom add1 add2 h (fun i => nth i a 0) (fun i => nth i (map h a) 0) Hh).
  intro. apply nth_map0, H0.
Qed.

Lemma pairwise_hom (add1 add2 : Z -> Z -> Z) (h : Z -> Z) :
  h 0 = 0 -> (forall x y, h (add1 x y) = add2 (h x) (h y)) ->
  forall fuel a, pairwise_fuel add2 fuel (map h a) = h (pairwise_fuel add1 fuel a).
Proof.
  intros H0 Hh. induction fuel as [|f IH]; intro a; cbn [pairwise_fuel]; [symmetry; exact H0|].
  rewrite length_map.
  destruct (Nat.ltb_spec (length a) 8).
  - transitivity (fold_left add2 (map h a) (h 0)); [rewrite H0; reflexivity|].
    generalize 0. induction a as [|x a IHa]; intro z; [reflexivity|].
    cbn [map fold_left]. rewrite <- Hh. apply IHa. cbn [length] in *. lia.
  - destruct (Nat.leb_spec (length a) 128).
    + apply pw_block_hom; assumption.
    + rewrite firstn_map, skipn_map, !IH. symmetry. apply Hh.
Qed.

(** ** Writing samples *)

Lemma quot_mono a b c d : 0 < b -> 0 < d -> a * d <= c * b -> Z.quot a b <= Z.quot c d.
Proof.
  intros Hb Hd H.
  pose proof (Z.quot_rem a b ltac:(lia)) as Ea. pose proof (Z.quot_rem c d ltac:(lia)) as Ec.
  pose proof (Z.rem_bound_abs a b ltac:(lia)) as Ba. pose proof (Z.rem_bound_abs c d ltac:(lia)) as Bc.
  set (qa := Z.quot a b) in *. set (qc := Z.quot c d) in *.
  set (ra := Z.rem a b) in *. set (rc := Z.rem c d) in *.
  destruct (Z.le_gt_cases 0 a), (Z.le_gt_cases 0 c).
  - pose proof (Z.rem_nonneg a b ltac:(lia) H0). pose proof (Z.rem_nonneg c d ltac:(lia) H1).
    destruct (Z.le_gt_cases qa qc); [assumption|exfalso].
    assert (b * d * (qc + 1) <= b * d * qa) by (apply Z.mul_le_mono_nonneg_l; nia).
    nia.
  - nia.
  - pose proof (Z.quot_pos c d H1 Hd).
    assert (qa <= 0) by (pose proof (Z.rem_nonpos a b ltac:(lia) ltac:(lia)); nia). lia.
  - pose proof (Z.rem_nonpos a b ltac:(lia) ltac:(lia)). pose proof (Z.rem_nonpos c d ltac:(lia) ltac:(lia)).
    destruct (Z.le_gt_cases qa qc); [assumption|exfalso].
    assert (b * d * (qc + 1) <= b * d * qa) by (apply Z.mul_le_mono_nonneg_l; nia).
    nia.
Qed.

Lemma trunc_mono x y : (x <= y)%Q -> trunc_int16 x <= trunc_int16 y.
Proof.
  destruct x as [a b], y as [c d]. unfold Qle, trunc_int16. cbn [Qnum Qden].
  intro H. apply quot_mono; lia.
Qed.

Lemma Qle_bool_false a b : Qle_bool a b = false -> (b < a)%Q.
Proof.
  intro E. apply Qnot_le_lt. rewrite <- Qle_bool_iff. congruence.
Qed.

Lemma clip_mono x y : (x <= y)%Q -> (clip16 x <= clip16 y)%Q.
Proof.
  intro H. unfold clip16.
  destruct (Qle_bool x (-32768 # 1)) eqn:E1; destruct (Qle_bool y (-32768 # 1)) eqn:E2;
  destruct (Qle_bool (32767 # 1) x) eqn:E3; destruct (Qle_bool (32767 # 1) y) eqn:E4;
  repeat match goal with
  | E : Qle_bool _ _ = true |- _ => apply Qle_bool_iff in E
  | E : Qle_bool _ _ = false |- _ => apply Qle_bool_false in E
  end;
  lra.
Qed.

Lemma write_sample_mono x y :
  (x <= y)%Q -> trunc_int16 (clip16 x) <= trunc_int16 (clip16 y).
Proof. intro H. apply trunc_mono, clip_mono, H. Qed.

Lemma write_sample_qeq x y : (x == y)%Q -> trunc_int16 (clip16 x) = trunc_int16 (clip16 y).
Proof.
  intro H. apply Z.le_antisymm; apply write_sample_mono; rewrite H; apply Qle_refl.
Qed.


Lemma fadd_0_0 : fadd 0 0 = 0.
Proof. reflexivity. Qed.

(** A sum of zeros is zero. *)
Lemma np_sum_zeros a : Forall (fun x => x = 0) a -> np_sum a = 0.
Proof.
  intro H. unfold np_sum.
  assert (Ha : a = map (fun _ => 0) a).
  { induction H as [|x a Hx _ IH]; [reflexivity|]. cbn [map]. rewrite <- IH, Hx. reflexivity. }
  rewrite Ha, length_map.
  rewrite (pairwise_hom fadd fadd (fun _ => 0) eq_refl (fun _ _ => eq_sym fadd_0_0)).
  apply fadd_0_0.
Qed.

Lemma of_int16_0 : of_int16 0 = 0.
Proof. reflexivity. Qed.

Lemma nth_of_int16 l k : nth k (map of_int16 l) 0 = of_int16 (nth k l 0).
Proof. rewrite <- of_int16_0 at 1. apply map_nth. Qed.

Lemma fsub_same x : fsub x x = 0.
Proof. unfold fsub. rewrite Z.sub_diag. reflexivity. Qed.

Lemma fmul_0_r x : fmul x 0 = 0.
Proof. unfold fmul. rewrite Z.mul_0_r. reflexivity. Qed.

Lemma f32_to_Q_mono x y : x <= y -> (f32_to_Q x <= f32_to_Q y)%Q.
Proof. intro H. unfold f32_to_Q, Qle. cbn [Qnum Qden]. nia. Qed.

Lemma f32_to_Q_of_int16 s : (f32_to_Q (of_int16 s) == inject_Z s)%Q.
Proof. unfold f32_to_Q, of_int16, Qeq, inject_Z. cbn [Qnum Qden]. rewrite Pos2Z.inj_pow. ring. Qed.

(** An int16 sample read as float32 is written back unchanged. *)
Lemma write_sample_of_int16 s : in_int16 s -> trunc_int16 (clip16 (f32_to_Q (of_int16 s))) = s.
Proof.
  intro H. rewrite (write_sample_qeq _ (inject_Z s)) by apply f32_to_Q_of_int16.
  apply write_sample_int, H.
Qed.

(** ** Echo encoding: capacity and the sample-wise effect *)

Lemma encode_echo_none_iff buf m d0 d1 alpha :
  Forall byte_char m ->
  (encode_echo_simple buf m d0 d1 alpha = None <->
   Z.of_nat (length (frames buf)) < 8 * (Z.of_nat (length m) + 3) * chunk_size + Z.max d0 d1).
Proof.
  intro Hm. unfold encode_echo_simple, read_wav_bytes.
  rewrite length_map, frame_bits_length by exact Hm.
  destruct (Z.ltb_spec (Z.of_nat (length (frames buf)))
              (Z.of_nat (8 * (length m + 3)) * chunk_size + Z.max d0 d1)) as [H|H];
    split; intro; try discriminate; try reflexivity; lia.
Qed.

Lemma nth_slice {A} (l : list A) a b j d :
  0 <= a -> a <= b -> b <= Z.of_nat (length l) -> (j < Z.to_nat (b - a))%nat ->
  nth j (slice l a b) d = nth (Z.to_nat a + j) l d.
Proof.
  intros Ha Hab Hb Hj. unfold slice.
  rewrite nth_firstn. destruct (Nat.ltb_spec j (Z.to_nat b - Z.to_nat a)); [|lia].
  apply nth_skipn.
Qed.

Lemma length_slice {A} (l : list A) a b :
  0 <= a -> a <= b -> b <= Z.of_nat (length l) -> length (slice l a b) = Z.to_nat (b - a).
Proof.
  intros. unfold slice. rewrite length_firstn, length_skipn. lia.
Qed.

Lemma length_zip_with {A B C} (f : A -> B -> C) xs ys :
  length (zip_with f xs ys) = Nat.min (length xs) (length ys).
Proof.
  revert ys. induction xs as [|x xs IH]; intros [|y ys]; simpl; auto.
Qed.

Lemma nth_zip_with {A B C} (f : A -> B -> C) xs ys j dx dy dz :
  (j < length xs)%nat -> (j < length ys)%nat ->
  nth j (zip_with f xs ys) dz = f (nth j xs dx) (nth j ys dy).
Proof.
  revert ys j. induction xs as [|x xs IH]; intros [|y ys] j Hx Hy; simpl in *; try lia.
  destruct j; [reflexivity|]. apply IH; lia.
Qed.

(** [out[a : a + len(v)] += v], sample by sample. *)
Lemma slice_add_spec out a v :
  (a + length v <= length out)%nat ->
  length (slice_add out a v) = length out /\
  forall k, nth k (slice_add out a v) 0 =
    if (a <=? k)%nat && (k <? a + length v)%nat
    then fadd (nth k out 0) (nth (k - a) v 0) else nth k out 0.
Proof.
  intro Hl. unfold slice_add.
  assert (Hf : length (firstn a out) = a) by (rewrite length_firstn; lia).
  assert (Hz : length (zip_with fadd (firstn (length v) (skipn a out)) v) = length v)
    by (rewrite length_zip_with, length_firstn, length_skipn; lia).
  split.
  { rewrite !length_app, Hf, Hz, length_skipn. lia. }
  intro k. destruct (Nat.ltb_spec k a) as [Hk|Hk].
  - rewrite app_nth1 by lia. rewrite nth_firstn.
    destruct (Nat.ltb_spec k a); [|lia]. destruct (Nat.leb_spec a k); [lia|reflexivity].
  - rewrite app_nth2 by lia. rewrite Hf.
    destruct (Nat.ltb_spec k (a + length v)) as [Hk'|Hk'].
    + rewrite app_nth1 by lia. destruct (Nat.leb_spec a k); [|lia]. simpl.
      rewrite (nth_zip_with _ _ _ _ 0 0) by (rewrite ?length_firstn, ?length_skipn; lia).
      rewrite nth_firstn, nth_skipn.
      destruct (Nat.ltb_spec (k - a) (length v)); [|lia].
      replace (a + (k - a))%nat with k by lia. reflexivity.
    + rewrite app_nth2 by lia. rewrite Hz, nth_skipn.
      rewrite andb_false_r. f_equal. lia.
Qed.

(** The loop of [encode_echo_simple], sample by sample, for a message
    that passed the capacity check: it keeps the length of [out], and each
    sample receives the echoes of the bits whose window covers it. *)
Lemma echo_embed_spec S d0 d1 mx alpha : forall bits i out,
  length out = length S ->
  0 <= i -> 0 <= d0 <= mx -> 0 <= d1 <= mx ->
  (i + Z.of_nat (length bits)) * chunk_size + mx <= Z.of_nat (length S) ->
  length (echo_embed S (Z.of_nat (length S)) d0 d1 mx alpha i bits out) = length S /\
  forall k, (k < length S)%nat ->
    nth k (echo_embed S (Z.of_nat (length S)) d0 d1 mx alpha i bits out) 0
    = echo_point S d0 d1 alpha i bits (Z.of_nat k) (nth k out 0).
Proof.
  induction bits as [|b bs IH]; intros i out Hout Hi Hd0 Hd1 Hcap.
  - split; [exact Hout|]. intros. reflexivity.
  - cbn [length] in Hcap. cbn [echo_embed echo_point].
    unfold chunk_size in *.
    rewrite Z.min_l by lia.
    destruct (Z.leb_spec (i * 8192 + 8192) (i * 8192)) as [|_]; [lia|].
    set (delay := if b then d1 else d0).
    assert (Hd : 0 <= delay <= mx) by (unfold delay; destruct b; lia).
    set (chunk := slice S (i * 8192) (i * 8192 + 8192)).
    assert (Hch : length chunk = Z.to_nat 8192)
      by (unfold chunk; rewrite length_slice by lia; lia).
    rewrite Hch.
    destruct (Z.leb_spec (i * 8192 + delay + Z.of_nat (Z.to_nat 8192)) (Z.of_nat (length out))) as [_|]; [|lia].
    set (a := Z.to_nat (i * 8192 + delay)).
    set (v := map (fmul (f32_of_Q alpha)) chunk).
    assert (Hv : length v = Z.to_nat 8192) by (unfold v; rewrite length_map; exact Hch).
    destruct (slice_add_spec out a v) as [Hlen Hnth]; [unfold a; lia|].
    destruct (IH (i + 1) (slice_add out a v)) as [IHl IHn]; try lia.
    split; [exact IHl|]. intros k Hk. rewrite IHn by exact Hk. f_equal.
    rewrite Hnth, Hv. unfold a.
    destruct (Z.leb_spec (i * 8192 + delay) (Z.of_nat k));
      destruct (Z.ltb_spec (Z.of_nat k) (i * 8192 + delay + 8192));
      destruct (Nat.leb_spec (Z.to_nat (i * 8192 + delay)) k);
      destruct (Nat.ltb_spec k (Z.to_nat (i * 8192 + delay) + Z.to_nat 8192)); try lia;
      cbn [andb]; try reflexivity.
    f_equal. unfold v.
    rewrite (nth_indep _ _ (fmul (f32_of_Q alpha) 0)) by (rewrite length_map, Hch; lia).
    rewrite map_nth. f_equal. unfold chunk.
    rewrite nth_slice by lia. f_equal. lia.
Qed.

Lemma echo_point_outside S d0 d1 mx alpha : forall bits i k acc,
  0 <= d0 <= mx -> 0 <= d1 <= mx ->
  (i + Z.of_nat (length bits)) * chunk_size + mx <= k ->
  echo_point S d0 d1 alpha i bits k acc = acc.
Proof.
  induction bits as [|b bs IH]; intros i k acc Hd0 Hd1 Hk; [reflexivity|].
  cbn [echo_point length] in *. unfold chunk_size in *.
  rewrite IH by lia.
  destruct b;
    [destruct (Z.ltb_spec k (i * 8192 + d1 + 8192)) | destruct (Z.ltb_spec k (i * 8192 + d0 + 8192))];
    try lia; rewrite andb_false_r; reflexivity.
Qed.

(** [write_wav_bytes] only ever writes signed 16-bit samples. *)
Lemma write_sample_range x : in_int16 (trunc_int16 (clip16 x)).
Proof.
  unfold clip16.
  destruct (Qle_bool x (-32768 # 1)) eqn:E1;
    [unfold in_int16, trunc_int16; cbn [Qnum Qden]; rewrite Z.quot_1_r; lia|].
  destruct (Qle_bool (32767 # 1) x) eqn:E2;
    [unfold in_int16, trunc_int16; cbn [Qnum Qden]; rewrite Z.quot_1_r; lia|].
  assert (H1 : ~ (x <= -32768 # 1)%Q) by (rewrite <- Qle_bool_iff; congruence).
  assert (H2 : ~ (32767 # 1 <= x)%Q) by (rewrite <- Qle_bool_iff; congruence).
  apply Qnot_le_lt in H1, H2. destruct x as [n d].
  unfold Qlt in H1, H2. simpl in H1, H2. unfold trunc_int16, in_int16. simpl.
  split.
  - rewrite <- (Z.quot_mul (-32768) (Zpos d)) by lia.
    apply Z.quot_le_mono; lia.
  - rewrite <- (Z.quot_mul 32767 (Zpos d)) by lia.
    apply Z.quot_le_mono; lia.
Qed.

Lemma encode_echo_out buf m d0 d1 alpha :
  8 * (Z.of_nat (length m) + 3) * chunk_size + Z.max d0 d1 <= Z.of_nat (length (frames buf)) ->
  Forall byte_char m ->
  encode_echo_simple buf m d0 d1 alpha =
  Some (write_wav_bytes (map f32_to_Q
          (echo_embed (map of_int16 (frames buf)) (Z.of_nat (length (frames buf))) d0 d1
             (Z.max d0 d1) alpha 0 (frame_bits m) (map of_int16 (frames buf)))) (params buf)).
Proof.
  intros Hcap Hm. unfold encode_echo_simple, read_wav_bytes.
  rewrite length_map.
  destruct (Z.ltb_spec (Z.of_nat (length (frames buf)))
             (Z.of_nat (length (frame_bits m)) * chunk_size + Z.max d0 d1)) as [H|_].
  - rewrite frame_bits_length in H by exact Hm. lia.
  - reflexivity.
Qed.

(** Sample [k] of what [encode_echo_simple] serialises, for a buffer that
    passed the capacity check. *)
Lemma echo_out_nth S p d0 d1 alpha bits k :
  0 <= d0 -> 0 <= d1 ->
  Z.of_nat (length bits) * chunk_size + Z.max d0 d1 <= Z.of_nat (length S) ->
  (k < length S)%nat ->
  nth k (frames (write_wav_bytes (map f32_to_Q
    (echo_embed S (Z.of_nat (length S)) d0 d1 (Z.max d0 d1) alpha 0 bits S)) p)) 0
  = trunc_int16 (clip16 (f32_to_Q (echo_point S d0 d1 alpha 0 bits (Z.of_nat k) (nth k S 0)))).
Proof.
  intros Hd0 Hd1 Hcap Hk.
  destruct (echo_embed_spec S d0 d1 (Z.max d0 d1) alpha bits 0 S eq_refl) as [Hl Hn];
    try lia.
  unfold write_wav_bytes. cbn [frames].
  rewrite map_map.
  rewrite (nth_indep _ _ (trunc_int16 (clip16 (f32_to_Q 0)))) by (rewrite length_map, Hl; exact Hk).
  rewrite (map_nth (fun x => trunc_int16 (clip16 (f32_to_Q x)))). rewrite Hn by exact Hk. reflexivity.
Qed.

Lemma echo_out_length S p n d0 d1 mx alpha bits :
  length (frames (write_wav_bytes (map f32_to_Q (echo_embed S n d0 d1 mx alpha 0 bits S)) p))
  = length (echo_embed S n d0 d1 mx alpha 0 bits S).
Proof. unfold write_wav_bytes. cbn [frames]. rewrite !length_map. reflexivity. Qed.

Lemma encode_echo_some buf m d0 d1 alpha out :
  encode_echo_simple buf m d0 d1 alpha = Some out ->
  Z.of_nat (length (frame_bits m)) * chunk_size + Z.max d0 d1 <= Z.of_nat (length (frames buf)) /\
  out = write_wav_bytes (map f32_to_Q
          (echo_embed (map of_int16 (frames buf)) (Z.of_nat (length (map of_int16 (frames buf))))
             d0 d1 (Z.max d0 d1) alpha 0 (frame_bits m) (map of_int16 (frames buf)))) (params buf).
Proof.
  unfold encode_echo_simple, read_wav_bytes.
  destruct (Z.ltb_spec (Z.of_nat (length (map of_int16 (frames buf))))
             (Z.of_nat (length (frame_bits m)) * chunk_size + Z.max d0 d1)) as [_|H];
    [discriminate|].
  intro E. injection E as <-. rewrite length_map in H. split; [exact H|reflexivity].
Qed.

(** ** Echo encoding claims *)

(** C5: echo capacity.  For a message of byte characters, [encode_echo_simple]
    returns [None] exactly when [8 * (len(message) + 3) * chunk_size +
    max(d0, d1)] exceeds the number of samples; in particular a 2-character
    message with [d0 = 200], [d1 = 400] never fits a 50,000-sample buffer. *)
Theorem echo_capacity buf m d0 d1 alpha :
  Forall byte_char m ->
  (encode_echo_simple buf m d0 d1 alpha = None <->
   Z.of_nat (length (frames buf)) < 8 * (Z.of_nat (length m) + 3) * chunk_size + Z.max d0 d1) /\
  (Z.of_nat (length (frames buf)) = 50000 -> length m = 2%nat -> d0 = 200 -> d1 = 400 ->
   encode_echo_simple buf m d0 d1 alpha = None).
Proof.
  intro Hm. split; [exact (encode_echo_none_iff buf m d0 d1 alpha Hm)|].
  intros Hn Hl -> ->. apply (encode_echo_none_iff buf m 200 400 alpha Hm).
  rewrite Hn, Hl. unfold chunk_size. lia.
Qed.

Lemma echo_capacity_witness :
  Forall byte_char (codes "HI") /\
  encode_echo_simple (const_wav 0 (Z.to_nat 50000)) (codes "HI") 200 400 (1#2) = None.
Proof.
  assert (Hm : Forall byte_char (codes "HI"))
    by (cbv; repeat constructor; discriminate).
  split; [exact Hm|].
  apply (proj2 (echo_capacity (const_wav 0 (Z.to_nat 50000)) (codes "HI") 200 400 (1#2) Hm)).
  - cbn [const_wav frames]. rewrite repeat_length. lia.
  - reflexivity.
  - reflexivity.
  - reflexivity.
Defined.

(** C7 (amended): echo encode effect.  Every chunk of an accepted call has
    its window and its echo window inside the buffer, so no echo is dropped:
    sample [k] of the output is the input sample to which, bit by bit in
    order, the float32 product [float32(alpha) * samples[k - delay_i]] is
    added with float32 rounding, for every bit [i] whose shifted window
    [[i*chunk_size + delay_i, i*chunk_size + delay_i + chunk_size)] holds
    [k]; the result is clipped and truncated to 16 bits.  Samples from [len(bits) * chunk_size + max(d0,
    d1)] on are unchanged, the format metadata is kept and every output
    sample is a signed 16-bit value. *)
Theorem echo_encode_effect buf m d0 d1 alpha out :
  0 <= d0 -> 0 <= d1 -> Forall in_int16 (frames buf) ->
  encode_echo_simple buf m d0 d1 alpha = Some out ->
  params out = params buf /\
  length (frames out) = length (frames buf) /\
  (forall k, (k < length (frames buf))%nat ->
     nth k (frames out) 0 =
     trunc_int16 (clip16 (f32_to_Q (echo_point (map of_int16 (frames buf)) d0 d1 alpha 0
                            (frame_bits m) (Z.of_nat k) (of_int16 (nth k (frames buf) 0)))))) /\
  (forall k, (k < length (frames buf))%nat ->
     Z.of_nat (length (frame_bits m)) * chunk_size + Z.max d0 d1 <= Z.of_nat k ->
     nth k (frames out) 0 = nth k (frames buf) 0) /\
  Forall in_int16 (frames out).
Proof.
  intros Hd0 Hd1 Hin Henc.
  destruct (encode_echo_some buf m d0 d1 alpha out Henc) as [Hcap ->].
  set (S := map of_int16 (frames buf)).
  assert (HS : length S = length (frames buf)) by apply length_map.
  assert (Hcap' : Z.of_nat (length (frame_bits m)) * chunk_size + Z.max d0 d1 <= Z.of_nat (length S))
    by (rewrite HS; exact Hcap).
  assert (Hnth : forall k, (k < length (frames buf))%nat ->
     nth k (frames (write_wav_bytes (map f32_to_Q (echo_embed S (Z.of_nat (length S)) d0 d1
                                       (Z.max d0 d1) alpha 0 (frame_bits m) S)) (params buf))) 0 =
     trunc_int16 (clip16 (f32_to_Q (echo_point S d0 d1 alpha 0 (frame_bits m)
                            (Z.of_nat k) (of_int16 (nth k (frames buf) 0)))))).
  { intros k Hk. rewrite echo_out_nth by (try rewrite HS; lia).
    unfold S. rewrite nth_of_int16. reflexivity. }
  destruct (echo_embed_spec S d0 d1 (Z.max d0 d1) alpha (frame_bits m) 0 S eq_refl) as [Hl _];
    try lia.
  split; [reflexivity|].
  split; [rewrite echo_out_length, Hl; exact HS|].
  split; [exact Hnth|].
  split.
  - intros k Hk Hout. rewrite Hnth by exact Hk.
    rewrite (echo_point_outside S d0 d1 (Z.max d0 d1)) by lia.
    apply write_sample_of_int16. apply nth_in_int16. exact Hin.
  - unfold write_wav_bytes. cbn [frames]. apply Forall_forall.
    intros x Hx. apply in_map_iff in Hx. destruct Hx as [y [<- _]].
    apply write_sample_range.
Qed.

Lemma echo_encode_effect_witness :
  exists out, encode_echo_simple (const_wav 1000 (Z.to_nat 196808)) [] 100 200 (1#2) = Some out /\
    (params out = params (const_wav 1000 (Z.to_nat 196808)) /\
     length (frames out) = length (frames (const_wav 1000 (Z.to_nat 196808))) /\
     (forall k, (k < length (frames (const_wav 1000 (Z.to_nat 196808))))%nat ->
        nth k (frames out) 0 =
        trunc_int16 (clip16 (f32_to_Q (echo_point (map of_int16 (frames (const_wav 1000 (Z.to_nat 196808))))
                               100 200 (1#2) 0 (frame_bits []) (Z.of_nat k)
                               (of_int16 (nth k (frames (const_wav 1000 (Z.to_nat 196808))) 0)))))) /\
     (forall k, (k < length (frames (const_wav 1000 (Z.to_nat 196808))))%nat ->
        Z.of_nat (length (frame_bits [])) * chunk_size + Z.max 100 200 <= Z.of_nat k ->
        nth k (frames out) 0 = nth k (frames (const_wav 1000 (Z.to_nat 196808))) 0) /\
     Forall in_int16 (frames out)).
Proof.
  destruct (encode_echo_simple (const_wav 1000 (Z.to_nat 196808)) [] 100 200 (1#2))
    as [out|] eqn:E.
  - exists out. split; [reflexivity|].
    apply (echo_encode_effect (const_wav 1000 (Z.to_nat 196808)) [] 100 200 (1#2) out).
    + lia.
    + lia.
    + apply const_wav_int16. unfold in_int16. lia.
    + exact E.
  - rewrite encode_echo_out in E; [discriminate| |constructor].
    cbn [const_wav frames]. rewrite repeat_length. unfold chunk_size. cbn [length]. lia.
Defined.

(** C7 as stated fails: the echo of the last bit's chunk spills [delay]
    samples past [len(bits) * chunk_size].  For 197,008 samples of value 1000,
    the empty message (24 bits, the last one set) and [d0 = 200], [d1 = 400],
    [alpha = 1/2], sample [24 * 8192 = 196608], which lies beyond the last
    encoded chunk, becomes 1500. *)
Lemma echo_encode_tail_counterexample :
  ~ (forall buf m d0 d1 alpha out,
       encode_echo_simple buf m d0 d1 alpha = Some out ->
       forall k, Z.of_nat (length (frame_bits m)) * chunk_size <= Z.of_nat k ->
       (k < length (frames buf))%nat ->
       nth k (frames out) 0 = nth k (frames buf) 0).
Proof.
  intro H.
  set (buf := const_wav 1000 (Z.to_nat 197008)).
  assert (Hlen : length (frames buf) = Z.to_nat 197008) by apply repeat_length.
  assert (Hcap : 8 * (Z.of_nat (length (@nil Z)) + 3) * chunk_size + Z.max 200 400
                 <= Z.of_nat (length (frames buf)))
    by (rewrite Hlen, Z2Nat.id by lia; unfold chunk_size; cbn [Datatypes.length]; lia).
  specialize (H buf [] 200 400 (1#2) _ (encode_echo_out buf [] 200 400 (1#2) Hcap (Forall_nil _))
                (Z.to_nat 196608)).
  assert (Hk1 : Z.of_nat (length (frame_bits [])) * chunk_size <= Z.of_nat (Z.to_nat 196608))
    by (rewrite Z2Nat.id by lia; reflexivity).
  assert (Hk2 : (Z.to_nat 196608 < length (frames buf))%nat) by (rewrite Hlen; lia).
  specialize (H Hk1 Hk2).
  rewrite <- (length_map of_int16 (frames buf)) in H.
  rewrite (echo_out_nth (map of_int16 (frames buf)) (params buf) 200 400 (1#2) (frame_bits [])
             (Z.to_nat 196608)) in H.
  - vm_compute in H. discriminate H.
  - lia.
  - lia.
  - rewrite length_map, Hlen, Z2Nat.id, frame_bits_length by (constructor || lia). unfold chunk_size. cbn [Datatypes.length]. lia.
  - rewrite length_map, Hlen. lia.
Qed.

(** ** Echo decoding: chunk by chunk *)

Lemma nth_seq_map (f : nat -> Z) n j : (j < n)%nat -> nth j (map f (seq 0 n)) 0 = f j.
Proof.
  intro Hj. rewrite (nth_indep _ _ (f 0%nat)) by (rewrite length_map, length_seq; exact Hj).
  rewrite map_nth, seq_nth by exact Hj. reflexivity.
Qed.

(** The correlation [decode_echo_simple] computes for chunk [i] at offset
    [d], when the chunk and its extension by [max_delay] lie in both buffers. *)
Lemma chunk_corr o s m d mx (i : nat) :
  0 <= d <= mx -> m <= Z.of_nat (length o) -> m <= Z.of_nat (length s) ->
  (Z.of_nat i + 1) * chunk_size + mx <= m ->
  let start := Z.of_nat i * chunk_size in
  let end_ := start + chunk_size in
  let orig_chunk := slice (map of_int16 o) start end_ in
  let echo := zip_with fsub (slice (map of_int16 s) start (end_ + mx))
                            (slice (map of_int16 o) start (end_ + mx)) in
  fabs (np_sum (zip_with fmul orig_chunk (slice echo d (d + Z.of_nat (length orig_chunk)))))
  = corr o s d i.
Proof.
  intros Hd Ho Hs Hm start end_ orig_chunk echo.
  unfold corr. f_equal. f_equal.
  unfold chunk_size in *.
  assert (Ho' : m <= Z.of_nat (length (map of_int16 o))) by (rewrite length_map; exact Ho).
  assert (Hs' : m <= Z.of_nat (length (map of_int16 s))) by (rewrite length_map; exact Hs).
  assert (Hoc : length orig_chunk = Z.to_nat 8192)
    by (unfold orig_chunk, end_, start; rewrite length_slice by lia; lia).
  assert (Hs1 : length (slice (map of_int16 s) start (end_ + mx)) = Z.to_nat (8192 + mx))
    by (unfold end_, start; rewrite length_slice by lia; lia).
  assert (Ho1 : length (slice (map of_int16 o) start (end_ + mx)) = Z.to_nat (8192 + mx))
    by (unfold end_, start; rewrite length_slice by lia; lia).
  assert (He : length echo = Z.to_nat (8192 + mx))
    by (unfold echo; rewrite length_zip_with, Hs1, Ho1; lia).
  assert (Hed : length (slice echo d (d + Z.of_nat (length orig_chunk))) = Z.to_nat 8192)
    by (rewrite length_slice; lia).
  apply nth_ext with (d := 0) (d' := 0).
  - rewrite length_zip_with, Hed, Hoc, length_map, length_seq. lia.
  - intros j Hj. rewrite length_zip_with, Hed, Hoc in Hj.
    rewrite nth_seq_map by lia.
    rewrite (nth_zip_with _ _ _ _ 0 0) by lia.
    unfold orig_chunk at 1. rewrite nth_slice by (unfold end_, start; lia).
    rewrite nth_slice by lia.
    unfold echo. rewrite (nth_zip_with _ _ _ _ 0 0) by lia.
    rewrite !nth_slice by (unfold end_, start; lia).
    rewrite !nth_of_int16.
    f_equal; [f_equal; f_equal; unfold start; lia|].
    f_equal; f_equal; f_equal; unfold start; lia.
Qed.

(** [decode_echo_simple]'s chunk loop: [k] chunks from chunk [i0] on give
    one bit and one diagnostic entry each, from the two correlations. *)
Lemma echo_detect_spec o s m d0 d1 mx : forall k i0,
  0 <= d0 <= mx -> 0 <= d1 <= mx ->
  m <= Z.of_nat (length o) -> m <= Z.of_nat (length s) ->
  (Z.of_nat i0 + Z.of_nat k) * chunk_size + mx <= m ->
  echo_detect (map of_int16 o) (map of_int16 s) m d0 d1 mx k (Z.of_nat i0) =
  (map (fun i => corr o s d0 i <? corr o s d1 i) (seq i0 k),
   map (fun i => mkDiag (Z.of_nat i) (corr o s d0 i) (corr o s d1 i)
                        (corr o s d0 i <? corr o s d1 i)) (seq i0 k)).
Proof.
  induction k as [|k IH]; intros i0 Hd0 Hd1 Ho Hs Hk; [reflexivity|].
  cbn [echo_detect seq map].
  destruct (Z.ltb_spec m (Z.of_nat i0 * chunk_size + chunk_size + mx)) as [H|_];
    [unfold chunk_size in *; lia|].
  rewrite (chunk_corr o s m d0 mx i0) by (unfold chunk_size in *; lia).
  rewrite (chunk_corr o s m d1 mx i0) by (unfold chunk_size in *; lia).
  replace (Z.of_nat i0 + 1) with (Z.of_nat (S i0)) by lia.
  rewrite IH by (unfold chunk_size in *; lia). reflexivity.
Qed.

Lemma echo_detect_length o s m d0 d1 mx : forall k i,
  length (snd (echo_detect o s m d0 d1 mx k i)) = length (fst (echo_detect o s m d0 d1 mx k i)).
Proof.
  induction k as [|k IH]; intro i; [reflexivity|].
  cbn [echo_detect].
  destruct (m <? i * chunk_size + chunk_size + mx); [reflexivity|].
  destruct (echo_detect o s m d0 d1 mx k (i + 1)) as [b dg] eqn:E.
  specialize (IH (i + 1)). rewrite E in IH. simpl in *. lia.
Qed.

(** [decode_echo_simple], chunk by chunk: the bits, the diagnostic list,
    and the message read from the bits. *)
Lemma decode_echo_spec o s d0 d1 :
  0 <= d0 -> 0 <= d1 ->
  decode_echo_simple o s d0 d1 =
  (echo_chars (range8 (num_chunks o s d0 d1))
     (map (fun i => corr (frames o) (frames s) d0 i <? corr (frames o) (frames s) d1 i)
          (seq 0 (num_chunks o s d0 d1))) [],
   map (fun i => mkDiag (Z.of_nat i) (corr (frames o) (frames s) d0 i) (corr (frames o) (frames s) d1 i)
                        (corr (frames o) (frames s) d0 i <? corr (frames o) (frames s) d1 i))
       (seq 0 (num_chunks o s d0 d1)),
   map (fun i => corr (frames o) (frames s) d0 i <? corr (frames o) (frames s) d1 i)
       (seq 0 (num_chunks o s d0 d1))).
Proof.
  intros Hd0 Hd1. unfold decode_echo_simple, read_wav_bytes.
  rewrite !length_map. fold (num_chunks o s d0 d1).
  set (mn := Z.min (Z.of_nat (length (frames o))) (Z.of_nat (length (frames s)))).
  destruct (Nat.eq_dec (num_chunks o s d0 d1) 0) as [E|E].
  - rewrite E. reflexivity.
  - assert (Hq : Z.of_nat (num_chunks o s d0 d1) * chunk_size + Z.max d0 d1 <= mn).
    { unfold num_chunks. fold mn. unfold num_chunks in E. fold mn in E. unfold chunk_size in *.
      pose proof (Z.mul_div_le (mn - Z.max d0 d1) 8192 ltac:(lia)).
      assert (0 < (mn - Z.max d0 d1) / 8192) by lia.
      rewrite Z2Nat.id by lia. lia. }
    pose proof (echo_detect_spec (frames o) (frames s) mn d0 d1 (Z.max d0 d1)
                  (num_chunks o s d0 d1) 0) as Hd.
    cbn [Z.of_nat] in Hd. rewrite Hd by (unfold mn in *; lia).
    rewrite length_map, length_seq. reflexivity.
Qed.

Lemma num_chunks_bound o s d0 d1 i :
  (i < num_chunks o s d0 d1)%nat ->
  (Z.of_nat i + 1) * chunk_size + Z.max d0 d1
  <= Z.min (Z.of_nat (length (frames o))) (Z.of_nat (length (frames s))).
Proof.
  unfold num_chunks, chunk_size. intro Hi.
  set (mn := Z.min (Z.of_nat (length (frames o))) (Z.of_nat (length (frames s)))) in *.
  pose proof (Z.mul_div_le (mn - Z.max d0 d1) 8192 ltac:(lia)).
  assert (Z.of_nat i < (mn - Z.max d0 d1) / 8192) by lia.
  lia.
Qed.

Lemma corr_firstn o s n d i :
  0 <= d -> (Z.of_nat i + 1) * chunk_size + d <= Z.of_nat n ->
  corr (firstn n o) (firstn n s) d i = corr o s d i.
Proof.
  intros Hd Hn. unfold corr. f_equal. f_equal. apply map_ext_in.
  intros j Hj. apply in_seq in Hj. unfold chunk_size in *.
  rewrite !nth_firstn.
  destruct (Nat.ltb_spec (Z.to_nat (Z.of_nat i * 8192 + Z.of_nat j)) n); [|lia].
  destruct (Nat.ltb_spec (Z.to_nat (Z.of_nat i * 8192 + d + Z.of_nat j)) n); [|lia].
  reflexivity.
Qed.

(** ** Echo decoding claims *)

(** C8: echo decode mechanics.  For non-negative delays [decode_echo_simple]
    examines [floor((min(len(original), len(stego)) - max(d0, d1)) /
    chunk_size)] chunks; chunk [i] gives the bit [corr_d0 < corr_d1] and the
    diagnostic entry [(i, corr_d0, corr_d1, bit)], where [corr_d] is
    [|sum_j original[i*chunk_size + j] * (stego - original)[i*chunk_size + d + j]|];
    and the result is the one for both buffers cut to the shorter length. *)
Theorem echo_decode_mechanics o s d0 d1 :
  0 <= d0 -> 0 <= d1 ->
  let mn := Z.min (Z.of_nat (length (frames o))) (Z.of_nat (length (frames s))) in
  let k := Z.to_nat ((mn - Z.max d0 d1) / chunk_size) in
  snd (decode_echo_simple o s d0 d1) =
    map (fun i => corr (frames o) (frames s) d0 i <? corr (frames o) (frames s) d1 i) (seq 0 k) /\
  snd (fst (decode_echo_simple o s d0 d1)) =
    map (fun i => mkDiag (Z.of_nat i) (corr (frames o) (frames s) d0 i)
                         (corr (frames o) (frames s) d1 i)
                         (corr (frames o) (frames s) d0 i <? corr (frames o) (frames s) d1 i))
        (seq 0 k) /\
  decode_echo_simple o s d0 d1 =
    decode_echo_simple (mkWav (params o) (firstn (Z.to_nat mn) (frames o)))
                       (mkWav (params s) (firstn (Z.to_nat mn) (frames s))) d0 d1.
Proof.
  intros Hd0 Hd1 mn k.
  set (o' := mkWav (params o) (firstn (Z.to_nat mn) (frames o))).
  set (s' := mkWav (params s) (firstn (Z.to_nat mn) (frames s))).
  rewrite (decode_echo_spec o s d0 d1 Hd0 Hd1), (decode_echo_spec o' s' d0 d1 Hd0 Hd1).
  split; [reflexivity|]. split; [reflexivity|].
  assert (Hn : num_chunks o' s' d0 d1 = num_chunks o s d0 d1).
  { unfold num_chunks, o', s'. cbn [frames]. rewrite !length_firstn.
    fold mn. unfold mn. f_equal. f_equal. f_equal. lia. }
  assert (Hc : forall d i, 0 <= d <= Z.max d0 d1 -> (i < num_chunks o s d0 d1)%nat ->
                 corr (frames o') (frames s') d i = corr (frames o) (frames s) d i).
  { intros d i Hd Hi. apply corr_firstn; [lia|].
    pose proof (num_chunks_bound o s d0 d1 i Hi). fold mn in H.
    assert (0 <= mn) by (unfold mn; lia). rewrite Z2Nat.id by lia. lia. }
  rewrite Hn.
  assert (Hb : map (fun i => corr (frames o') (frames s') d0 i <? corr (frames o') (frames s') d1 i)
                   (seq 0 (num_chunks o s d0 d1))
             = map (fun i => corr (frames o) (frames s) d0 i <? corr (frames o) (frames s) d1 i)
                   (seq 0 (num_chunks o s d0 d1))).
  { apply map_ext_in. intros i Hi. apply in_seq in Hi.
    rewrite !Hc by lia. reflexivity. }
  assert (Hg : map (fun i => mkDiag (Z.of_nat i) (corr (frames o') (frames s') d0 i)
                               (corr (frames o') (frames s') d1 i)
                               (corr (frames o') (frames s') d0 i <? corr (frames o') (frames s') d1 i))
                   (seq 0 (num_chunks o s d0 d1))
             = map (fun i => mkDiag (Z.of_nat i) (corr (frames o) (frames s) d0 i)
                               (corr (frames o) (frames s) d1 i)
                               (corr (frames o) (frames s) d0 i <? corr (frames o) (frames s) d1 i))
                   (seq 0 (num_chunks o s d0 d1))).
  { apply map_ext_in. intros i Hi. apply in_seq in Hi.
    rewrite !Hc by lia. reflexivity. }
  rewrite Hb, Hg. reflexivity.
Qed.

(** At the near-tie buffers: one chunk, and the bit is 0, as numpy's
    float32 sum rounds [2^24 + 1] to [2^24]. *)
Lemma echo_decode_mechanics_witness :
  (0 <= 200 /\ 0 <= 400) /\
  (let mn := Z.min (Z.of_nat (length (frames near_tie_orig))) (Z.of_nat (length (frames near_tie_stego))) in
  let k := Z.to_nat ((mn - Z.max 200 400) / chunk_size) in
  snd (decode_echo_simple near_tie_orig near_tie_stego 200 400) =
    map (fun i => corr (frames near_tie_orig) (frames near_tie_stego) 200 i <? corr (frames near_tie_orig) (frames near_tie_stego) 400 i) (seq 0 k) /\
  snd (fst (decode_echo_simple near_tie_orig near_tie_stego 200 400)) =
    map (fun i => mkDiag (Z.of_nat i) (corr (frames near_tie_orig) (frames near_tie_stego) 200 i)
                         (corr (frames near_tie_orig) (frames near_tie_stego) 400 i)
                         (corr (frames near_tie_orig) (frames near_tie_stego) 200 i <? corr (frames near_tie_orig) (frames near_tie_stego) 400 i))
        (seq 0 k) /\
  decode_echo_simple near_tie_orig near_tie_stego 200 400 =
    decode_echo_simple (mkWav (params near_tie_orig) (firstn (Z.to_nat mn) (frames near_tie_orig)))
                       (mkWav (params near_tie_stego) (firstn (Z.to_nat mn) (frames near_tie_stego))) 200 400) /\
  num_chunks near_tie_orig near_tie_stego 200 400 = 1%nat /\
  corr (frames near_tie_orig) (frames near_tie_stego) 200 0 = of_int16 16777216 /\
  corr (frames near_tie_orig) (frames near_tie_stego) 400 0 = of_int16 16777216 /\
  snd (decode_echo_simple near_tie_orig near_tie_stego 200 400) = [false].
Proof.
  split; [split; lia|]. split; [apply echo_decode_mechanics; lia|].
  split; [vm_compute; reflexivity|].
  split; [vm_compute; reflexivity|]. split; [vm_compute; reflexivity|].
  vm_compute. reflexivity.
Defined.

(** ** When the echo does not survive re-quantisation *)

Lemma corr_same o d i : corr o o d i = 0.
Proof.
  unfold corr. rewrite (map_ext _ (fun _ => 0)) by (intro j; rewrite fsub_same; apply fmul_0_r).
  rewrite np_sum_zeros; [reflexivity|].
  apply Forall_forall. intros x Hx. apply in_map_iff in Hx. destruct Hx as [? [<- _]]. reflexivity.
Qed.

Lemma firstn_falses n k : firstn n (repeat false k) = repeat false (Nat.min n k).
Proof.
  revert k. induction n as [|n IH]; intros [|k]; simpl; try reflexivity.
  rewrite IH. reflexivity.
Qed.

(** An all-zero bitstream holds no message. *)
Lemma echo_chars_falses n k acc : echo_chars n (repeat false k) acc = no_message.
Proof.
  destruct n as [|n]; [reflexivity|]. cbn [echo_chars].
  rewrite firstn_falses, repeat_length.
  destruct (Nat.ltb_spec (Nat.min 8 k) 8) as [H|H]; [reflexivity|].
  replace (Nat.min 8 k) with 8%nat by lia. reflexivity.
Qed.

(** [decode_echo_simple] on a stego buffer with the original's samples. *)
Lemma echo_decode_same o s d0 d1 :
  0 <= d0 -> 0 <= d1 -> frames s = frames o ->
  decode_echo_simple o s d0 d1 =
  (no_message, map (fun i => mkDiag (Z.of_nat i) 0 0 false) (seq 0 (num_chunks o s d0 d1)),
   repeat false (num_chunks o s d0 d1)).
Proof.
  intros Hd0 Hd1 Hs. rewrite (decode_echo_spec o s d0 d1 Hd0 Hd1). rewrite Hs.
  set (N := num_chunks o s d0 d1).
  assert (Hb : map (fun i => corr (frames o) (frames o) d0 i <? corr (frames o) (frames o) d1 i)
                   (seq 0 N) = repeat false N).
  { rewrite (map_ext _ (fun _ : nat => false)) by (intro; rewrite !corr_same; reflexivity).
    rewrite map_const, length_seq. reflexivity. }
  rewrite Hb, echo_chars_falses. f_equal. f_equal.
  apply map_ext. intro i. rewrite !corr_same. reflexivity.
Qed.


(** [B = 2^148 - 2^126] is [1/2 - 2^-23] as an [f32].  For [v] in
    [{0, 1}] and [j <= 2] the values [v + j * B] are float32 values, so a
    rounded sum below one of them stays below it. *)
Lemma round32_step_upper v j x :
  (v = 0 \/ v = 2 ^ 149) -> (j = 1 \/ j = 2) ->
  x <= v + (2 ^ 148 - 2 ^ 126) * j -> round32 x 1 <= v + (2 ^ 148 - 2 ^ 126) * j.
Proof.
  intros Hv Hj Hx.
  transitivity (round32 (v + (2 ^ 148 - 2 ^ 126) * j) 1); [apply round32_mono; lia|].
  apply Z.eq_le_incl. destruct Hv as [-> | ->]; destruct Hj as [-> | ->]; vm_compute; reflexivity.
Qed.

Lemma round32_step_lower v x :
  (v = 0 \/ v = 2 ^ 149) -> v <= x -> v <= round32 x 1.
Proof.
  intros Hv Hx.
  transitivity (round32 v 1); [|apply round32_mono; lia].
  apply Z.eq_le_incl. destruct Hv as [-> | ->]; vm_compute; reflexivity.
Qed.

(** The echo of a 0/1 sample: [float32(alpha) * sample] lies in [[0, B]]. *)
Lemma echo_term_bound alpha y :
  (0 <= alpha)%Q -> (alpha <= 4194303 # 8388608)%Q -> (y = 0 \/ y = 2 ^ 149) ->
  0 <= fmul (f32_of_Q alpha) y <= 2 ^ 148 - 2 ^ 126.
Proof.
  intros H0 H1 Hy.
  pose proof (f32_of_Q_mono _ _ H0) as A0. pose proof (f32_of_Q_mono _ _ H1) as A1.
  change (f32_of_Q 0) with 0 in A0.
  replace (f32_of_Q (4194303 # 8388608)) with (2 ^ 148 - 2 ^ 126) in A1
    by (vm_compute; reflexivity).
  destruct Hy as [-> | ->]; [rewrite fmul_0_r; lia|].
  unfold fmul.
  pose proof (round32_scale (f32_of_Q alpha) 1 (2 ^ 149) ltac:(lia) ltac:(lia)) as E.
  rewrite Z.mul_1_l in E. rewrite E.
  split; [apply round32_nonneg; lia|].
  transitivity (round32 (2 ^ 148 - 2 ^ 126) 1); [apply round32_mono; lia|].
  apply Z.eq_le_incl. vm_compute. reflexivity.
Qed.

(** With samples all [0] or [1] and [0 <= alpha <= 1/2 - 2^-23], the bits
    from index [i] on keep sample [k] (of value [v]) within [[v, v + 2B]]:
    the invariant is [acc + B * (windows still ahead) <= v + 2B], a sample
    being in at most one window per delay. *)
Lemma echo_point_bounds S d0 d1 alpha k v :
  (0 <= alpha)%Q -> (alpha <= 4194303 # 8388608)%Q ->
  (forall j, nth j S 0 = 0 \/ nth j S 0 = 2 ^ 149) ->
  (v = 0 \/ v = 2 ^ 149) ->
  forall bits i acc,
  v <= acc ->
  acc + (2 ^ 148 - 2 ^ 126) * ((if i * chunk_size + d0 <=? k then 1 else 0)
                               + (if i * chunk_size + d1 <=? k then 1 else 0))
    <= v + (2 ^ 148 - 2 ^ 126) * 2 ->
  v <= echo_point S d0 d1 alpha i bits k acc <= v + (2 ^ 148 - 2 ^ 126) * 2.
Proof.
  intros Ha0 Ha1 HS Hv. induction bits as [|b bs IH]; intros i acc Hlo Hup.
  - cbn [echo_point]. split; [exact Hlo|].
    destruct (_ <=? k), (_ <=? k); lia.
  - cbn [echo_point]. unfold fadd.
    set (y := nth (Z.to_nat (k - (if b then d1 else d0))) S 0).
    pose proof (echo_term_bound alpha y Ha0 Ha1 (HS _)) as Hp.
    set (p := fmul (f32_of_Q alpha) y) in *.
    unfold chunk_size in *.
    destruct b;
      match goal with
      | |- context [echo_point _ _ _ _ _ _ _ (if ?c then _ else _)] =>
          destruct c eqn:Hw;
          [apply andb_true_iff in Hw; destruct Hw as [Hw1 Hw2];
           apply Z.leb_le in Hw1; apply Z.ltb_lt in Hw2 |
           apply andb_false_iff in Hw]
      end;
      apply IH;
      destruct (Z.leb_spec ((i + 1) * 8192 + d0) k);
      destruct (Z.leb_spec ((i + 1) * 8192 + d1) k);
      destruct (Z.leb_spec (i * 8192 + d0) k);
      destruct (Z.leb_spec (i * 8192 + d1) k);
      try lia;
      try (destruct Hw as [Hw|Hw]; [apply Z.leb_gt in Hw | apply Z.ltb_ge in Hw]; lia);
      repeat match goal with
      | |- v <= round32 _ 1 => apply round32_step_lower; [exact Hv|lia]
      | |- round32 (acc + p) 1 + _ <= _ =>
          first [ pose proof (round32_step_upper v 1 (acc + p) Hv ltac:(lia) ltac:(lia)); lia
                | pose proof (round32_step_upper v 2 (acc + p) Hv ltac:(lia) ltac:(lia)); lia ]
      end.
Qed.

(** A float32 between [v] and [v + 1] (excluded). *)
Lemma f32_to_Q_between v x :
  v * 2 ^ 149 <= x < (v + 1) * 2 ^ 149 ->
  (inject_Z v <= f32_to_Q x)%Q /\ (f32_to_Q x < inject_Z v + 1)%Q.
Proof.
  intro H. unfold Qle, Qlt, f32_to_Q, inject_Z, Qplus. cbn [Qnum Qden].
  rewrite !Pos.mul_1_r, Pos2Z.inj_pow. lia.
Qed.

Lemma trunc_small v y :
  (v = 0 \/ v = 1) -> (inject_Z v <= y)%Q -> (y < inject_Z v + 1)%Q ->
  trunc_int16 (clip16 y) = v.
Proof.
  intros Hv H1 H2.
  assert (Hy : (0 <= y < 2)%Q) by (destruct Hv as [-> | ->]; unfold inject_Z in *; split; lra).
  unfold clip16.
  destruct (Qle_bool y (-32768 # 1)) eqn:E1;
    [apply Qle_bool_iff in E1; lra|].
  destruct (Qle_bool (32767 # 1) y) eqn:E2;
    [apply Qle_bool_iff in E2; lra|].
  destruct y as [n d]. unfold Qle, Qlt in H1, H2. cbn [Qnum Qden inject_Z Qplus] in H1, H2.
  unfold trunc_int16. cbn [Qnum Qden].
  rewrite Z.quot_div_nonneg by (destruct Hv; subst; lia).
  symmetry. apply (Z.div_unique n (Zpos d) v (n - Zpos d * v)); [left|]; lia.
Qed.

(** With samples all [0] or [1] and [0 <= alpha <= 1/2 - 2^-23], every
    echo is lost when [write_wav_bytes] truncates: the stego buffer has the
    original samples. *)
Lemma echo_small_unchanged buf m d0 d1 alpha out :
  0 <= d0 -> 0 <= d1 -> (0 <= alpha)%Q -> (alpha <= 4194303 # 8388608)%Q ->
  Forall (fun x => x = 0 \/ x = 1) (frames buf) ->
  encode_echo_simple buf m d0 d1 alpha = Some out ->
  frames out = frames buf.
Proof.
  intros Hd0 Hd1 Ha0 Ha1 H01 Henc.
  destruct (encode_echo_some buf m d0 d1 alpha out Henc) as [Hcap ->].
  set (S := map of_int16 (frames buf)).
  assert (HS : length S = length (frames buf)) by apply length_map.
  assert (Hv : forall j, nth j (frames buf) 0 = 0 \/ nth j (frames buf) 0 = 1).
  { intro j. destruct (Nat.lt_ge_cases j (length (frames buf))).
    - rewrite Forall_forall in H01. apply H01, nth_In. assumption.
    - rewrite nth_overflow by assumption. left. reflexivity. }
  assert (Hof : forall j, of_int16 (nth j (frames buf) 0) = 0 \/
                          of_int16 (nth j (frames buf) 0) = 2 ^ 149).
  { intro j. unfold of_int16. destruct (Hv j) as [-> | ->]; [left|right]; ring. }
  assert (HSb : forall j, nth j S 0 = 0 \/ nth j S 0 = 2 ^ 149)
    by (intro j; unfold S; rewrite nth_of_int16; apply Hof).
  destruct (echo_embed_spec S d0 d1 (Z.max d0 d1) alpha (frame_bits m) 0 S eq_refl) as [Hl _];
    try (rewrite ?HS; lia).
  apply nth_ext with (d := 0) (d' := 0).
  - rewrite echo_out_length, Hl. exact HS.
  - intros k Hk. rewrite echo_out_length, Hl in Hk.
    rewrite echo_out_nth by (rewrite ?HS; lia).
    replace (nth k S 0) with (of_int16 (nth k (frames buf) 0)) by (unfold S; rewrite nth_of_int16; reflexivity).
    destruct (echo_point_bounds S d0 d1 alpha (Z.of_nat k) (of_int16 (nth k (frames buf) 0))
                Ha0 Ha1 HSb (Hof k) (frame_bits m) 0 (of_int16 (nth k (frames buf) 0)))
      as [B1 B2];
      [lia|destruct (_ <=? Z.of_nat k), (_ <=? Z.of_nat k); lia|].
    destruct (f32_to_Q_between (nth k (frames buf) 0)
                (echo_point S d0 d1 alpha 0 (frame_bits m) (Z.of_nat k) (of_int16 (nth k (frames buf) 0))))
      as [C1 C2];
      [revert B1 B2; generalize (echo_point S d0 d1 alpha 0 (frame_bits m) (Z.of_nat k)
                                   (of_int16 (nth k (frames buf) 0)));
       unfold of_int16; intros e B1 B2; rewrite Z.mul_add_distr_r, Z.mul_1_l;
       assert (2 ^ 149 = 2 * 2 ^ 148) by reflexivity; assert (0 < 2 ^ 126) by reflexivity;
       lia|].
    apply trunc_small; [apply Hv|exact C1|exact C2].
Qed.

Lemma repeat_01 v n : v = 0 \/ v = 1 -> Forall (fun x => x = 0 \/ x = 1) (repeat v n).
Proof.
  intro Hv. apply Forall_forall. intros x Hx. apply repeat_spec in Hx. subst. exact Hv.
Qed.

(** ** The echo round trip *)

(** C3 (amended): [encode_echo_simple] and [decode_echo_simple] are plain
    functions of their inputs, but the round trip is not guaranteed.  An
    echo is lost when [write_wav_bytes] truncates: for any buffer whose
    samples are all 0 or 1, any non-negative delays and
    [0 <= alpha <= 1/2 - 2^-23] (in float32 the echoes of a sample sum to
    less than 1), the stego buffer has the original samples and
    [decode_echo_simple] returns ["No hidden message found"], whatever the
    buffer length. *)
Theorem echo_roundtrip_lost buf m d0 d1 alpha st :
  0 <= d0 -> 0 <= d1 -> (0 <= alpha)%Q -> (alpha <= 4194303 # 8388608)%Q ->
  Forall (fun x => x = 0 \/ x = 1) (frames buf) ->
  encode_echo_simple buf m d0 d1 alpha = Some st ->
  frames st = frames buf /\ fst (fst (decode_echo_simple buf st d0 d1)) = no_message.
Proof.
  intros Hd0 Hd1 Ha0 Ha1 H01 Henc.
  assert (Hf : frames st = frames buf)
    by exact (echo_small_unchanged buf m d0 d1 alpha st Hd0 Hd1 Ha0 Ha1 H01 Henc).
  split; [exact Hf|].
  rewrite (echo_decode_same buf st d0 d1 Hd0 Hd1 Hf). reflexivity.
Qed.

Lemma echo_roundtrip_lost_witness :
  exists st, encode_echo_simple (const_wav 1 (Z.to_nat 197008)) [] 200 400 (3#8) = Some st /\
    (frames st = frames (const_wav 1 (Z.to_nat 197008)) /\
     fst (fst (decode_echo_simple (const_wav 1 (Z.to_nat 197008)) st 200 400)) = no_message).
Proof.
  destruct (encode_echo_simple (const_wav 1 (Z.to_nat 197008)) [] 200 400 (3#8)) as [st|] eqn:E.
  - exists st. split; [reflexivity|].
    apply (echo_roundtrip_lost (const_wav 1 (Z.to_nat 197008)) [] 200 400 (3#8) st).
    + lia.
    + lia.
    + unfold Qle. simpl. lia.
    + unfold Qle. simpl. lia.
    + apply repeat_01. right. reflexivity.
    + exact E.
  - rewrite encode_echo_out in E; [discriminate| |constructor].
    cbn [const_wav frames]. rewrite repeat_length. unfold chunk_size. cbn [length]. lia.
Defined.

(** C3 as stated fails: no buffer length is long enough.  A buffer of any
    length whose samples are all 1 is non-silent and holds 16-bit samples;
    with [d0 = 200], [d1 = 400], [alpha = 3/8] and the message ["HI"] it
    passes the capacity check, yet decoding the stego buffer gives ["No
    hidden message found"]. *)
Lemma echo_roundtrip_counterexample :
  ~ (exists N : nat, forall buf m d0 d1 alpha,
       (N <= length (frames buf))%nat ->
       Forall in_int16 (frames buf) ->
       (exists k, nth k (frames buf) 0 <> 0) ->
       0 < d0 -> 0 < d1 -> d0 <> d1 ->
       (3 # 10 <= alpha)%Q -> (alpha <= 1)%Q ->
       Forall (fun c => 1 <= c < 128) m ->
       8 * (Z.of_nat (length m) + 3) * chunk_size + Z.max d0 d1 <= Z.of_nat (length (frames buf)) ->
       exists st, encode_echo_simple buf m d0 d1 alpha = Some st /\
                  fst (fst (decode_echo_simple buf st d0 d1)) = m).
Proof.
  intros [N H].
  set (n := (N + Z.to_nat 328080)%nat).
  set (buf := const_wav 1 n).
  assert (Hlen : length (frames buf) = n) by apply repeat_length.
  assert (Hm : length (codes "HI") = 2%nat) by reflexivity.
  destruct (H buf (codes "HI") 200 400 (3#8)) as [st [Hst Hdec]].
  - rewrite Hlen. unfold n. lia.
  - apply const_wav_int16. unfold in_int16. lia.
  - exists 0%nat.
    assert (Hin : In (nth 0 (frames buf) 0) (frames buf)) by (apply nth_In; rewrite Hlen; unfold n; lia).
    apply repeat_spec in Hin. rewrite Hin. discriminate.
  - lia.
  - lia.
  - lia.
  - unfold Qle. simpl. lia.
  - unfold Qle. simpl. lia.
  - cbv. repeat constructor; discriminate.
  - rewrite Hlen, Hm. unfold n, chunk_size. lia.
  - assert (Hf : frames st = frames buf).
    { apply (echo_small_unchanged buf (codes "HI") 200 400 (3#8) st); try lia.
      - unfold Qle. simpl. lia.
      - unfold Qle. simpl. lia.
      - apply repeat_01. right. reflexivity.
      - exact Hst. }
    rewrite (echo_decode_same buf st 200 400 ltac:(lia) ltac:(lia) Hf) in Hdec.
    vm_compute in Hdec. discriminate Hdec.
Qed.

(** ** The character stage of the echo decoder *)

Lemma firstn_bits c rest : 0 <= c < 256 -> firstn 8 (fmt08b c ++ rest) = fmt08b c.
Proof.
  intro Hc. rewrite firstn_app, fmt08b_length by exact Hc.
  rewrite Nat.sub_diag, firstn_O, app_nil_r. apply firstn_all2.
  rewrite fmt08b_length by exact Hc. lia.
Qed.

Lemma skipn_bits c rest : 0 <= c < 256 -> skipn 8 (fmt08b c ++ rest) = rest.
Proof.
  intro Hc. rewrite skipn_app, fmt08b_length by exact Hc.
  rewrite Nat.sub_diag, skipn_all2; [reflexivity|].
  rewrite fmt08b_length by exact Hc. lia.
Qed.

(** The character loop stops at the first byte that is 0 or above 127;
    when the characters before it never end with the terminator, the
    outcome is ["No hidden message found"]. *)
Lemma echo_chars_stop pre : forall acc n v rest,
  Forall (fun c => 1 <= c < 128) pre -> infixb terminator (acc ++ pre) = false ->
  0 <= v < 256 -> (v = 0 \/ 127 < v) ->
  echo_chars n (flat_map fmt08b pre ++ fmt08b v ++ rest) acc = no_message.
Proof.
  induction pre as [|c pre IH]; intros acc n v rest Hpre Hinf Hv Hstop;
    (destruct n as [|n]; [reflexivity|]); cbn [echo_chars flat_map app].
  - rewrite firstn_bits, fmt08b_length by exact Hv. cbn [Nat.ltb Nat.leb].
    rewrite fmt08b_value by exact Hv.
    destruct Hstop as [-> | Hgt]; [reflexivity|].
    destruct (Z.ltb_spec 127 v); [|lia]. rewrite orb_true_r. reflexivity.
  - inversion Hpre as [|? ? Hc Hpre']; subst.
    rewrite <- app_assoc, firstn_bits, fmt08b_length by lia. cbn [Nat.ltb Nat.leb].
    rewrite fmt08b_value by lia.
    destruct (Z.eqb_spec c 0); [lia|]. destruct (Z.ltb_spec 127 c); [lia|]. cbn [orb].
    destruct (ends_with (acc ++ [c]) terminator) eqn:Ee.
    + exfalso. apply ends_with_spec in Ee. destruct Ee as [a Ea].
      assert (infixb terminator (acc ++ c :: pre) = true); [|congruence].
      apply infixb_spec. exists a, pre.
      replace (acc ++ c :: pre) with ((acc ++ [c]) ++ pre) by (rewrite <- app_assoc; reflexivity).
      rewrite Ea, <- app_assoc. reflexivity.
    + rewrite skipn_bits by lia. apply IH; try assumption.
      rewrite <- app_assoc. exact Hinf.
Qed.

(** ** Echo decoding claims, continued *)

(** C9: echo decode byte guard.  When the decided bits start with the
    8-bit groups of characters in [1..127] that hold no ["###"], followed by
    a group of value 0 or above 127, [decode_echo_simple] returns ["No hidden
    message found"] as its message, next to one diagnostic entry per decided
    bit and the bits themselves. *)
Theorem echo_decode_byte_guard o s d0 d1 pre v rest :
  Forall (fun c => 1 <= c < 128) pre -> infixb terminator pre = false ->
  0 <= v < 256 -> (v = 0 \/ 127 < v) ->
  snd (decode_echo_simple o s d0 d1) = flat_map fmt08b pre ++ fmt08b v ++ rest ->
  fst (fst (decode_echo_simple o s d0 d1)) = no_message /\
  length (snd (fst (decode_echo_simple o s d0 d1))) = length (snd (decode_echo_simple o s d0 d1)).
Proof.
  intros Hpre Hinf Hv Hstop. unfold decode_echo_simple, read_wav_bytes.
  set (O := map of_int16 (frames o)). set (S := map of_int16 (frames s)).
  pose proof (echo_detect_length O S
                (Z.min (Z.of_nat (length O)) (Z.of_nat (length S)))
                d0 d1 (Z.max d0 d1)
                (Z.to_nat ((Z.min (Z.of_nat (length O)) (Z.of_nat (length S))
                            - Z.max d0 d1) / chunk_size)) 0) as Hl.
  destruct (echo_detect _ _ _ _ _ _ _ _) as [bits dg]. cbn [fst snd] in *.
  intros ->. split; [|exact Hl].
  apply (echo_chars_stop pre [] _ v rest Hpre Hinf Hv Hstop).
Qed.

Lemma echo_decode_byte_guard_witness :
  (Forall (fun c => 1 <= c < 128) [] /\ infixb terminator [] = false /\
   0 <= 0 < 256 /\ (0 = 0 \/ 127 < 0) /\
   snd (decode_echo_simple (const_wav 0 (Z.to_nat 65936)) (const_wav 0 (Z.to_nat 65936)) 200 400)
   = flat_map fmt08b [] ++ fmt08b 0 ++ []) /\
  (fst (fst (decode_echo_simple (const_wav 0 (Z.to_nat 65936)) (const_wav 0 (Z.to_nat 65936)) 200 400))
     = no_message /\
   length (snd (fst (decode_echo_simple (const_wav 0 (Z.to_nat 65936)) (const_wav 0 (Z.to_nat 65936)) 200 400)))
   = length (snd (decode_echo_simple (const_wav 0 (Z.to_nat 65936)) (const_wav 0 (Z.to_nat 65936)) 200 400))).
Proof.
  assert (Hn : num_chunks (const_wav 0 (Z.to_nat 65936)) (const_wav 0 (Z.to_nat 65936)) 200 400 = 8%nat).
  { unfold num_chunks. cbn [const_wav frames]. rewrite repeat_length, Z2Nat.id by lia.
    reflexivity. }
  assert (Hb : snd (decode_echo_simple (const_wav 0 (Z.to_nat 65936)) (const_wav 0 (Z.to_nat 65936)) 200 400)
               = flat_map fmt08b [] ++ fmt08b 0 ++ []).
  { rewrite (echo_decode_same (const_wav 0 (Z.to_nat 65936)) (const_wav 0 (Z.to_nat 65936)) 200 400
               ltac:(lia) ltac:(lia) eq_refl), Hn.
    reflexivity. }
  assert (Hp : Forall (fun c => 1 <= c < 128) []) by constructor.
  assert (Hi : infixb terminator [] = false) by reflexivity.
  assert (Hv : 0 <= 0 < 256) by lia.
  assert (Hs : 0 = 0 \/ 127 < 0) by (left; reflexivity).
  split; [split; [exact Hp|split; [exact Hi|split; [exact Hv|split; [exact Hs|exact Hb]]]]|].
  exact (echo_decode_byte_guard _ _ 200 400 [] 0 [] Hp Hi Hv Hs Hb).
Defined.

(** * Further properties of the code *)

(** ** LSB hiding *)

Lemma embed_twice flat bits :
  Forall (fun u => 0 <= u < 65536) flat ->
  embed_bits (embed_bits flat bits) bits = embed_bits flat bits.
Proof.
  revert flat. induction bits as [|b bs IH]; intros flat H; [destruct flat; reflexivity|].
  destruct H as [|f fs Hf Hfs]; [reflexivity|]. cbn [embed_bits].
  rewrite IH by exact Hfs. f_equal.
  assert (0 <= f / 2 < 32768) by (split; [apply Z.div_pos|apply Z.div_lt_upper_bound]; lia).
  rewrite (lsb_set f b Hf), lsb_set by (destruct b; cbn [Z.b2z]; lia).
  rewrite (Z.mul_comm 2 (f / 2)), Z.div_add_l by lia.
  destruct b; cbn [Z.b2z]; [change (1 / 2) with 0|change (0 / 2) with 0]; lia.
Qed.

Lemma map_uint16_int16 l :
  Forall (fun u => 0 <= u < 65536) l -> map to_uint16 (map to_int16 l) = l.
Proof.
  induction 1 as [|u l Hu _ IH]; [reflexivity|]. simpl. rewrite IH, to_uint16_to_int16 by exact Hu.
  reflexivity.
Qed.

(** Encoding the same message into a stego buffer again changes nothing:
    [encode_lsb] is idempotent. *)
Theorem lsb_reencode buf m out :
  encode_lsb buf m = Some out -> encode_lsb out m = Some out.
Proof.
  intro E.
  assert (Hcap : (length (frame_bits m) <= length (frames buf))%nat)
    by (apply encode_lsb_some_iff; eauto).
  rewrite encode_lsb_out in E by exact Hcap. injection E as <-.
  set (F := map to_uint16 (frames buf)).
  assert (HF : Forall (fun u => 0 <= u < 65536) F) by apply uint16_all.
  assert (HE := embed_range F (frame_bits m) HF).
  rewrite encode_lsb_out.
  - cbn [params frames]. rewrite map_uint16_int16 by exact HE. rewrite embed_twice by exact HF.
    reflexivity.
  - cbn [frames]. rewrite length_map, embed_bits_length; unfold F; rewrite length_map; exact Hcap.
Qed.

Lemma lsb_reencode_witness :
  exists out, encode_lsb (const_wav 5 40) (codes "HI") = Some out /\
              encode_lsb out (codes "HI") = Some out.
Proof.
  destruct (encode_lsb (const_wav 5 40) (codes "HI")) as [out|] eqn:E;
    [|vm_compute in E; discriminate].
  exists out. split; [reflexivity|]. exact (lsb_reencode _ _ _ E).
Defined.

(** The signed value of a 16-bit pattern moves by at most 1 when bit 0 is
    rewritten. *)
Lemma to_int16_lsb u b :
  0 <= u < 65536 -> Z.abs (to_int16 (2 * (u / 2) + Z.b2z b) - to_int16 u) <= 1.
Proof.
  intro Hu. unfold to_int16.
  assert (H2 : u - 1 <= 2 * (u / 2) <= u) by (pose proof (Z.mul_div_le u 2); pose proof (Z.mod_pos_bound u 2); pose proof (Z.div_mod u 2); lia).
  assert (Hb : 0 <= Z.b2z b <= 1) by (destruct b; cbn; lia).
  destruct (Z.ltb_spec (2 * (u / 2) + Z.b2z b) 32768); destruct (Z.ltb_spec u 32768); lia.
Qed.

(** Sample by sample, [encode_lsb] moves a sample by at most 1, and only
    below the framed bit length. *)
Lemma lsb_sample_step buf m out :
  Forall in_int16 (frames buf) ->
  encode_lsb buf m = Some out ->
  forall k, Z.abs (nth k (frames out) 0 - nth k (frames buf) 0) <= 1 /\
            ((length (frame_bits m) <= k)%nat -> nth k (frames out) 0 = nth k (frames buf) 0).
Proof.
  intros Hwf E k.
  assert (Hcap : (length (frame_bits m) <= length (frames buf))%nat)
    by (apply encode_lsb_some_iff; eauto).
  rewrite encode_lsb_out in E by exact Hcap. injection E as <-. cbn [frames].
  set (F := map to_uint16 (frames buf)).
  assert (Hfl : (length (frame_bits m) <= length F)%nat) by (unfold F; rewrite length_map; exact Hcap).
  rewrite nth_map0 by reflexivity.
  assert (Hs : nth k (frames buf) 0 = to_int16 (nth k F 0)).
  { unfold F. rewrite nth_map0 by reflexivity. symmetry.
    apply to_int16_to_uint16, nth_in_int16, Hwf. }
  rewrite Hs.
  destruct (Nat.lt_ge_cases k (length (frame_bits m))) as [Hk|Hk].
  - rewrite nth_embed_in by assumption.
    assert (Hf : 0 <= nth k F 0 < 65536) by (unfold F; rewrite nth_map0 by reflexivity; apply to_uint16_range).
    rewrite lsb_set by exact Hf. split; [apply to_int16_lsb; exact Hf|lia].
  - rewrite nth_embed_out by exact Hk. split; [lia|reflexivity].
Qed.

(** [encode_lsb] moves every sample by at most one quantisation step. *)
Theorem lsb_sample_change buf m out :
  Forall in_int16 (frames buf) ->
  encode_lsb buf m = Some out ->
  forall k, Z.abs (nth k (frames out) 0 - nth k (frames buf) 0) <= 1.
Proof. intros Hwf E k. exact (proj1 (lsb_sample_step buf m out Hwf E k)). Qed.

Lemma lsb_sample_change_witness :
  exists out, encode_lsb (const_wav (-3) 40) (codes "HI") = Some out /\
    forall k, Z.abs (nth k (frames out) 0 - nth k (frames (const_wav (-3) 40)) 0) <= 1.
Proof.
  destruct (encode_lsb (const_wav (-3) 40) (codes "HI")) as [out|] eqn:E;
    [|vm_compute in E; discriminate].
  exists out. split; [reflexivity|].
  exact (lsb_sample_change _ _ _ (const_wav_int16 (-3) 40 ltac:(unfold in_int16; lia)) E).
Defined.

Lemma sumZ_acc l a : fold_left Z.add l a = a + sumZ l.
Proof.
  unfold sumZ. revert a. induction l as [|x l IH]; intro a; cbn [fold_left]; [lia|].
  rewrite (IH (a + x)), (IH (0 + x)). lia.
Qed.

Lemma sumZ_cons x l : sumZ (x :: l) = x + sumZ l.
Proof. unfold sumZ at 1. cbn [fold_left]. rewrite sumZ_acc. lia. Qed.

(** The noise power of two sample lists that differ by at most 1 at each
    index, and not at all from index [n] on, is at most [n]. *)
Lemma noise_power_bound : forall a b n,
  (forall k, Z.abs (nth k a 0 - nth k b 0) <= 1) ->
  (forall k, (n <= k)%nat -> nth k a 0 = nth k b 0) ->
  noise_power a b <= Z.of_nat n.
Proof.
  unfold noise_power.
  induction a as [|x a IH]; intros [|y b] n H1 H2; cbn [zip_with]; try (unfold sumZ; simpl; lia).
  rewrite sumZ_cons.
  assert (Hx : (x - y) * (x - y) <= 1) by (specialize (H1 0%nat); simpl in H1; nia).
  destruct n as [|n].
  - assert (x = y) as -> by exact (H2 0%nat (Nat.le_refl 0)).
    rewrite Z.sub_diag. specialize (IH b 0%nat).
    assert (sumZ (zip_with (fun a0 b0 => (a0 - b0) * (a0 - b0)) a b) <= Z.of_nat 0);
      [apply IH; [intro k; exact (H1 (S k))|intros k _; exact (H2 (S k) ltac:(lia))]|lia].
  - assert (sumZ (zip_with (fun a0 b0 => (a0 - b0) * (a0 - b0)) a b) <= Z.of_nat n);
      [apply IH; [intro k; exact (H1 (S k))|intros k Hk; exact (H2 (S k) ltac:(lia))]|lia].
Qed.

(** [src/snr.py] on an LSB stego buffer: the noise power
    [sum((original - stego) ** 2)] is at most the framed bit length. *)
Theorem lsb_noise_power buf m out :
  Forall in_int16 (frames buf) ->
  encode_lsb buf m = Some out ->
  noise_power (frames buf) (frames out) <= Z.of_nat (length (frame_bits m)).
Proof.
  intros Hwf E. apply noise_power_bound.
  - intro k. pose proof (proj1 (lsb_sample_step buf m out Hwf E k)). lia.
  - intros k Hk. symmetry. exact (proj2 (lsb_sample_step buf m out Hwf E k) Hk).
Qed.

Lemma lsb_noise_power_witness :
  exists out, encode_lsb (const_wav 7 40) (codes "HI") = Some out /\
    noise_power (frames (const_wav 7 40)) (frames out) <= Z.of_nat (length (frame_bits (codes "HI"))).
Proof.
  destruct (encode_lsb (const_wav 7 40) (codes "HI")) as [out|] eqn:E;
    [|vm_compute in E; discriminate].
  exists out. split; [reflexivity|].
  exact (lsb_noise_power _ _ _ (const_wav_int16 7 40 ltac:(unfold in_int16; lia)) E).
Defined.

Lemma bits_value_acc l : forall a, 0 <= a -> Forall (fun b => 0 <= b <= 1) l ->
  0 <= fold_left (fun acc b => 2 * acc + b) l a < (a + 1) * 2 ^ Z.of_nat (length l).
Proof.
  induction l as [|b l IH]; intros a Ha H; cbn [fold_left length].
  - simpl. lia.
  - inversion H as [|? ? Hb Hl]; subst.
    destruct (IH (2 * a + b) ltac:(lia) Hl) as [H1 H2].
    rewrite Nat2Z.inj_succ, Z.pow_succ_r by lia.
    pose proof (Z.pow_pos_nonneg 2 (Z.of_nat (length l)) ltac:(lia) ltac:(lia)).
    split; [lia|nia].
Qed.

Lemma byte_value_range byte :
  Forall (fun b => 0 <= b <= 1) byte -> length byte = 8%nat -> 0 <= bits_value byte < 256.
Proof.
  intros H Hl. unfold bits_value.
  pose proof (bits_value_acc byte 0 ltac:(lia) H) as R. rewrite Hl in R. exact R.
Qed.

(** What [decode_lsb]'s loop returns, when a terminator is found:
    characters in [1..255], three fewer than the groups of 8 it read. *)
Lemma lsb_loop_found_inv n : forall bits acc,
  Forall (fun b => 0 <= b <= 1) bits -> Forall (fun c => 1 <= c < 256) acc ->
  lsb_loop n bits acc <> no_message ->
  Forall (fun c => 1 <= c < 256) (lsb_loop n bits acc) /\
  (8 * (length (lsb_loop n bits acc) + 3) <= 8 * length acc + length bits)%nat.
Proof.
  induction n as [|n IH]; intros bits acc Hb Hacc Hne; [contradiction|].
  cbn [lsb_loop] in *.
  destruct (Nat.ltb_spec (length (firstn 8 bits)) 8) as [|Hl]; [contradiction|].
  rewrite length_firstn in Hl.
  assert (Hv : 0 <= bits_value (firstn 8 bits) < 256).
  { apply byte_value_range; [|rewrite length_firstn; lia].
    rewrite <- (firstn_skipn 8 bits) in Hb. apply Forall_app in Hb. exact (proj1 Hb). }
  destruct (Z.eqb_spec (bits_value (firstn 8 bits)) 0) as [|H0]; [contradiction|].
  set (c := bits_value (firstn 8 bits)) in *.
  assert (Hacc' : Forall (fun c => 1 <= c < 256) (acc ++ [c]))
    by (apply Forall_app; split; [exact Hacc|constructor; [lia|constructor]]).
  destruct (ends_with (acc ++ [c]) terminator) eqn:He.
  - apply ends_with_spec in He. destruct He as [a Ha].
    assert (H3 : (3 <= length (acc ++ [c]))%nat) by (rewrite Ha, length_app; simpl; lia).
    split.
    + rewrite <- (firstn_skipn (length (acc ++ [c]) - 3) (acc ++ [c])) in Hacc'.
      apply Forall_app in Hacc'. exact (proj1 Hacc').
    + rewrite length_firstn. rewrite length_app in *. cbn [length] in *. lia.
  - assert (Hb' : Forall (fun b => 0 <= b <= 1) (skipn 8 bits)).
    { rewrite <- (firstn_skipn 8 bits) in Hb. apply Forall_app in Hb. exact (proj2 Hb). }
    destruct (IH (skipn 8 bits) (acc ++ [c]) Hb' Hacc' Hne) as [IH1 IH2].
    split; [exact IH1|]. rewrite length_skipn, length_app in IH2. cbn [length] in IH2. lia.
Qed.

Lemma lsb_bits_01 l : Forall (fun b => 0 <= b <= 1) (map (fun s => Z.land (to_uint16 s) 1) l).
Proof.
  apply Forall_forall. intros b Hb. apply in_map_iff in Hb. destruct Hb as [s [<- _]].
  replace (Z.land (to_uint16 s) 1) with (to_uint16 s mod 2)
    by (symmetry; apply (Z.land_ones (to_uint16 s) 1); lia).
  pose proof (Z.mod_pos_bound (to_uint16 s) 2 ltac:(lia)). lia.
Qed.

(** A message [decode_lsb] finds is a string of characters in [1..255]
    whose framed length [8 * (len + 3)] fits the buffer it was read from;
    so a buffer of fewer than 24 samples never holds one. *)
Theorem lsb_decode_found w :
  decode_lsb w <> no_message ->
  Forall (fun c => 1 <= c < 256) (decode_lsb w) /\
  (8 * (length (decode_lsb w) + 3) <= length (frames w))%nat.
Proof.
  rewrite decode_lsb_bits. intro Hne.
  destruct (lsb_loop_found_inv _ _ [] (lsb_bits_01 (frames w)) (Forall_nil _) Hne) as [H1 H2].
  rewrite length_map in H2. simpl in H2. split; [exact H1|lia].
Qed.

Lemma lsb_decode_found_witness :
  decode_lsb (mkWav (mono16 40) (map Z.b2z (frame_bits (codes "HI")))) <> no_message /\
  Forall (fun c => 1 <= c < 256) (decode_lsb (mkWav (mono16 40) (map Z.b2z (frame_bits (codes "HI"))))) /\
  (8 * (length (decode_lsb (mkWav (mono16 40) (map Z.b2z (frame_bits (codes "HI"))))) + 3)
   <= length (frames (mkWav (mono16 40) (map Z.b2z (frame_bits (codes "HI"))))))%nat.
Proof.
  assert (H : decode_lsb (mkWav (mono16 40) (map Z.b2z (frame_bits (codes "HI")))) <> no_message)
    by (vm_compute; discriminate).
  split; [exact H|]. exact (lsb_decode_found _ H).
Defined.

Lemma bits_value_zeros l : Forall (fun b => b = 0) l -> bits_value l = 0.
Proof.
  unfold bits_value. intro Ha.
  enough (E : forall a, a = 0 -> fold_left (fun acc b => 2 * acc + b) l a = 0) by (apply E; reflexivity).
  induction Ha as [|x l Hx _ IH]; intros a Ha0; cbn [fold_left]; [exact Ha0|].
  apply IH. lia.
Qed.

Lemma lsb_bit_even s : Z.even s = true -> Z.land (to_uint16 s) 1 = 0.
Proof.
  intro He. apply Z.even_spec in He. destruct He as [t ->].
  replace (Z.land (to_uint16 (2 * t)) 1) with (to_uint16 (2 * t) mod 2)
    by (symmetry; apply (Z.land_ones (to_uint16 (2 * t)) 1); lia).
  unfold to_uint16. rewrite Z.mod_mod_divide by (exists 32768; reflexivity).
  rewrite Z.mul_comm, Z_mod_mult. reflexivity.
Qed.

(** When the first 8 samples of a buffer are even, [decode_lsb] reads a
    zero first character and stops: no message, whatever follows
    (a silent buffer among them). *)
Theorem lsb_decode_even_start w :
  (8 <= length (frames w))%nat ->
  (forall k, (k < 8)%nat -> Z.even (nth k (frames w) 0) = true) ->
  decode_lsb w = no_message.
Proof.
  intros Hl Hev. rewrite decode_lsb_bits.
  destruct (range8 (length (frames w))) as [|n] eqn:R.
  { pose proof (range8_lower 1 (length (frames w)) ltac:(lia)). lia. }
  cbn [lsb_loop].
  rewrite firstn_map.
  rewrite length_map, length_firstn.
  destruct (Nat.ltb_spec (Nat.min 8 (length (frames w))) 8); [reflexivity|].
  rewrite bits_value_zeros; [reflexivity|].
  apply Forall_forall. intros b Hb. apply in_map_iff in Hb. destruct Hb as [s [<- Hs]].
  apply (In_nth _ _ 0) in Hs. destruct Hs as [k [Hk <-]].
  rewrite length_firstn in Hk. rewrite nth_firstn.
  destruct (Nat.ltb_spec k 8); [|lia].
  apply lsb_bit_even, Hev. lia.
Qed.

Lemma lsb_decode_even_start_witness :
  (8 <= length (frames (const_wav 4 30)))%nat /\
  (forall k, (k < 8)%nat -> Z.even (nth k (frames (const_wav 4 30)) 0) = true) /\
  decode_lsb (const_wav 4 30) = no_message.
Proof.
  assert (H1 : (8 <= length (frames (const_wav 4 30)))%nat) by (vm_compute; lia).
  assert (H2 : forall k, (k < 8)%nat -> Z.even (nth k (frames (const_wav 4 30)) 0) = true).
  { intros k Hk. do 8 (destruct k as [|k]; [reflexivity|]). lia. }
  split; [exact H1|split; [exact H2|]]. exact (lsb_decode_even_start _ H1 H2).
Defined.

(** [write_wav_bytes] of int16 samples (as floats) writes those samples
    back unchanged: reading then writing a valid WAV is the identity. *)
Theorem write_wav_int16_id s p :
  Forall in_int16 s -> write_wav_bytes (map inject_Z s) p = mkWav p s.
Proof.
  intro H. unfold write_wav_bytes. f_equal. rewrite map_map.
  induction H as [|x l Hx _ IH]; [reflexivity|].
  cbn [map]. rewrite write_sample_int by exact Hx. f_equal. exact IH.
Qed.

Lemma write_wav_int16_id_witness :
  Forall in_int16 [-32768; -1; 0; 32767] /\
  write_wav_bytes (map inject_Z [-32768; -1; 0; 32767]) (mono16 4) = mkWav (mono16 4) [-32768; -1; 0; 32767].
Proof.
  assert (H : Forall in_int16 [-32768; -1; 0; 32767])
    by (repeat constructor; unfold in_int16; lia).
  split; [exact H|]. exact (write_wav_int16_id _ (mono16 4) H).
Defined.

(** The float-to-sample conversion of [write_wav_bytes] ([np.clip] then
    [np.int16]) is monotone: pointwise larger values never give a smaller
    sample. *)
Theorem write_wav_monotone xs ys p :
  Forall2 Qle xs ys ->
  Forall2 Z.le (frames (write_wav_bytes xs p)) (frames (write_wav_bytes ys p)).
Proof.
  intro H. unfold write_wav_bytes. cbn [frames].
  induction H as [|x y xs ys Hxy _ IH]; constructor; [apply write_sample_mono, Hxy|exact IH].
Qed.

Lemma write_wav_monotone_witness :
  Forall2 Qle [(-7 # 2)%Q; 40000%Q] [(5 # 3)%Q; 40001%Q] /\
  Forall2 Z.le (frames (write_wav_bytes [(-7 # 2)%Q; 40000%Q] (mono16 2)))
               (frames (write_wav_bytes [(5 # 3)%Q; 40001%Q] (mono16 2))).
Proof.
  assert (H : Forall2 Qle [(-7 # 2)%Q; 40000%Q] [(5 # 3)%Q; 40001%Q])
    by (repeat constructor; unfold Qle; cbn; lia).
  split; [exact H|]. exact (write_wav_monotone _ _ (mono16 2) H).
Defined.

(** [np.clip] saturates: values at or beyond the int16 bounds are written
    as the bound, and values strictly between [-1] and [1] as [0]. *)
Theorem write_wav_saturate x p :
  ((32767 # 1 <= x)%Q -> frames (write_wav_bytes [x] p) = [32767]) /\
  ((x <= -32768 # 1)%Q -> frames (write_wav_bytes [x] p) = [-32768]) /\
  ((-1 # 1 < x)%Q -> (x < 1)%Q -> frames (write_wav_bytes [x] p) = [0]).
Proof.
  unfold write_wav_bytes. cbn [frames map]. split; [|split].
  - intro H. f_equal. apply Z.le_antisymm.
    + apply write_sample_range.
    + replace 32767 with (trunc_int16 (clip16 (32767 # 1))) at 1 by reflexivity.
      apply write_sample_mono, H.
  - intro H. f_equal. apply Z.le_antisymm.
    + replace (-32768) with (trunc_int16 (clip16 (-32768 # 1))) by reflexivity.
      apply write_sample_mono, H.
    + apply write_sample_range.
  - intros H1 H2. f_equal. unfold clip16.
    destruct (Qle_bool x (-32768 # 1)) eqn:E1; [apply Qle_bool_iff in E1; lra|].
    destruct (Qle_bool (32767 # 1) x) eqn:E2; [apply Qle_bool_iff in E2; lra|].
    destruct x as [n d]. unfold Qlt in H1, H2. cbn [Qnum Qden] in H1, H2.
    unfold trunc_int16. cbn [Qnum Qden].
    apply Z.quot_small_iff; lia.
Qed.

Lemma write_wav_saturate_witness :
  frames (write_wav_bytes [40000%Q] (mono16 1)) = [32767] /\
  frames (write_wav_bytes [(-100000)%Q] (mono16 1)) = [-32768] /\
  frames (write_wav_bytes [(-9 # 10)%Q] (mono16 1)) = [0].
Proof.
  split; [|split].
  - apply (proj1 (write_wav_saturate 40000%Q (mono16 1))). unfold Qle; cbn; lia.
  - apply (proj1 (proj2 (write_wav_saturate (-100000)%Q (mono16 1)))). unfold Qle; cbn; lia.
  - apply (proj2 (proj2 (write_wav_saturate (-9 # 10)%Q (mono16 1)))); unfold Qlt; cbn; lia.
Defined.

Lemma encode_echo_nth buf m d0 d1 alpha out :
  0 <= d0 -> 0 <= d1 ->
  encode_echo_simple buf m d0 d1 alpha = Some out ->
  params out = params buf /\ length (frames out) = length (frames buf) /\
  forall k, (k < length (frames buf))%nat ->
    nth k (frames out) 0 =
    trunc_int16 (clip16 (f32_to_Q (echo_point (map of_int16 (frames buf)) d0 d1 alpha 0 (frame_bits m)
                                     (Z.of_nat k) (of_int16 (nth k (frames buf) 0))))).
Proof.
  intros Hd0 Hd1 Henc.
  destruct (encode_echo_some buf m d0 d1 alpha out Henc) as [Hcap ->].
  set (S := map of_int16 (frames buf)).
  assert (HS : length S = length (frames buf)) by apply length_map.
  destruct (echo_embed_spec S d0 d1 (Z.max d0 d1) alpha (frame_bits m) 0 S eq_refl) as [Hl _];
    try (rewrite ?HS; lia).
  split; [reflexivity|]. split; [rewrite echo_out_length, Hl; exact HS|].
  intros k Hk. rewrite echo_out_nth by (try rewrite HS; lia).
  unfold S. rewrite nth_of_int16. reflexivity.
Qed.

(** An int16 sample is a float32 value. *)
Lemma of_int16_repr s : in_int16 s -> round32 (of_int16 s) 1 = of_int16 s.
Proof.
  unfold in_int16, of_int16. intro H. rewrite round32_int, round32_small; [reflexivity|].
  change (2 ^ 24) with 16777216. lia.
Qed.

Lemma echo_point_alpha0 S d0 d1 : forall bits i k acc,
  round32 acc 1 = acc -> echo_point S d0 d1 0 i bits k acc = acc.
Proof.
  induction bits as [|b bs IH]; intros i k acc Hacc; cbn [echo_point]; [reflexivity|].
  assert (E : forall y, fadd acc (fmul (f32_of_Q 0) y) = acc).
  { intro y. change (f32_of_Q 0) with 0. unfold fadd, fmul.
    rewrite Z.mul_0_l, round32_0, Z.add_0_r. exact Hacc. }
  destruct (_ && _); rewrite ?E; apply IH; exact Hacc.
Qed.

Lemma echo_point_before S d0 d1 alpha : forall bits i k acc,
  0 <= i -> k < d0 -> k < d1 -> echo_point S d0 d1 alpha i bits k acc = acc.
Proof.
  induction bits as [|b bs IH]; intros i k acc Hi H0 H1; cbn [echo_point]; [reflexivity|].
  unfold chunk_size.
  destruct (Z.leb_spec (i * 8192 + (if b then d1 else d0)) k) as [Hle|_];
    [destruct b; lia|].
  cbn [andb]. apply IH; lia.
Qed.

(** With a float32 [v <= acc] and non-negative echoes, rounding keeps every
    partial sum at or above [v]. *)
Lemma echo_point_ge S d0 d1 alpha v :
  (0 <= alpha)%Q -> (forall j, 0 <= nth j S 0) -> round32 v 1 = v ->
  forall bits i k acc, v <= acc -> v <= echo_point S d0 d1 alpha i bits k acc.
Proof.
  intros Ha HS Hv. induction bits as [|b bs IH]; intros i k acc Hacc; cbn [echo_point]; [exact Hacc|].
  destruct (_ && _); apply IH; try exact Hacc.
  unfold fadd. rewrite <- Hv. apply round32_mono; [lia|].
  assert (0 <= fmul (f32_of_Q alpha) (nth (Z.to_nat (k - (if b then d1 else d0))) S 0)).
  { unfold fmul. apply round32_nonneg; [lia|].
    pose proof (f32_of_Q_mono _ _ Ha) as A. change (f32_of_Q 0) with 0 in A.
    apply Z.mul_nonneg_nonneg; [exact A|apply HS]. }
  lia.
Qed.

Lemma nth_nonneg_of_int16 l : Forall (fun s => 0 <= s) l -> forall j, 0 <= nth j (map of_int16 l) 0.
Proof.
  intros H j. rewrite nth_of_int16. unfold of_int16. destruct (Nat.lt_ge_cases j (length l)).
  - rewrite Forall_forall in H. pose proof (H _ (nth_In l 0 H0)). lia.
  - rewrite nth_overflow by assumption. lia.
Qed.

(** [encode_echo_simple] with [alpha = 0] gives back its input: every
    echo added is zero and [write_wav_bytes] rewrites the int16 samples. *)
Theorem echo_encode_alpha0 buf m d0 d1 out :
  0 <= d0 -> 0 <= d1 -> Forall in_int16 (frames buf) ->
  encode_echo_simple buf m d0 d1 0 = Some out -> out = buf.
Proof.
  intros Hd0 Hd1 Hin Henc.
  destruct (encode_echo_nth buf m d0 d1 0 out Hd0 Hd1 Henc) as [Hp [Hl Hn]].
  destruct out as [po fo], buf as [pb fb]. cbn [params frames] in *. subst po. f_equal.
  apply nth_ext with (d := 0) (d' := 0); [exact Hl|].
  intros k Hk. rewrite Hl in Hk. rewrite Hn by exact Hk.
  rewrite echo_point_alpha0 by (apply of_int16_repr, nth_in_int16, Hin).
  apply write_sample_of_int16, nth_in_int16, Hin.
Qed.

Lemma echo_encode_alpha0_witness :
  exists out, encode_echo_simple (const_wav 1000 (Z.to_nat 196808)) [] 100 200 0 = Some out /\
    out = const_wav 1000 (Z.to_nat 196808).
Proof.
  destruct (encode_echo_simple (const_wav 1000 (Z.to_nat 196808)) [] 100 200 0) as [out|] eqn:E.
  - exists out. split; [reflexivity|].
    apply (echo_encode_alpha0 (const_wav 1000 (Z.to_nat 196808)) [] 100 200 out).
    + lia.
    + lia.
    + apply const_wav_int16. unfold in_int16. lia.
    + exact E.
  - rewrite encode_echo_out in E; [discriminate| |constructor].
    cbn [const_wav frames]. rewrite repeat_length. unfold chunk_size. cbn [length]. lia.
Defined.

(** The first [min(d0, d1)] samples are never reached by an echo: the
    stego buffer starts with the original samples. *)
Theorem echo_encode_head buf m d0 d1 alpha out :
  0 <= d0 -> 0 <= d1 -> Forall in_int16 (frames buf) ->
  encode_echo_simple buf m d0 d1 alpha = Some out ->
  forall k, Z.of_nat k < Z.min d0 d1 -> nth k (frames out) 0 = nth k (frames buf) 0.
Proof.
  intros Hd0 Hd1 Hin Henc k Hk.
  destruct (encode_echo_nth buf m d0 d1 alpha out Hd0 Hd1 Henc) as [_ [Hl Hn]].
  destruct (Nat.lt_ge_cases k (length (frames buf))) as [H|H].
  - rewrite Hn by exact H. rewrite echo_point_before by lia.
    apply write_sample_of_int16, nth_in_int16, Hin.
  - rewrite !nth_overflow by lia. reflexivity.
Qed.

Lemma echo_encode_head_witness :
  exists out, encode_echo_simple (const_wav 1000 (Z.to_nat 196808)) [] 100 200 (1#2) = Some out /\
    nth 99 (frames out) 0 = nth 99 (frames (const_wav 1000 (Z.to_nat 196808))) 0.
Proof.
  destruct (encode_echo_simple (const_wav 1000 (Z.to_nat 196808)) [] 100 200 (1#2)) as [out|] eqn:E.
  - exists out. split; [reflexivity|].
    apply (echo_encode_head (const_wav 1000 (Z.to_nat 196808)) [] 100 200 (1#2) out).
    + lia.
    + lia.
    + apply const_wav_int16. unfold in_int16. lia.
    + exact E.
    + cbn. lia.
  - rewrite encode_echo_out in E; [discriminate| |constructor].
    cbn [const_wav frames]. rewrite repeat_length. unfold chunk_size. cbn [length]. lia.
Defined.

(** With non-negative samples and [alpha >= 0] the echoes only add: no
    stego sample is below the original one. *)
Theorem echo_encode_nonneg buf m d0 d1 alpha out :
  0 <= d0 -> 0 <= d1 -> (0 <= alpha)%Q ->
  Forall in_int16 (frames buf) -> Forall (fun s => 0 <= s) (frames buf) ->
  encode_echo_simple buf m d0 d1 alpha = Some out ->
  forall k, nth k (frames buf) 0 <= nth k (frames out) 0.
Proof.
  intros Hd0 Hd1 Ha Hin Hpos Henc k.
  destruct (encode_echo_nth buf m d0 d1 alpha out Hd0 Hd1 Henc) as [_ [Hl Hn]].
  destruct (Nat.lt_ge_cases k (length (frames buf))) as [H|H].
  - rewrite Hn by exact H.
    rewrite <- (write_sample_of_int16 (nth k (frames buf) 0)) at 1 by (apply nth_in_int16, Hin).
    apply write_sample_mono, f32_to_Q_mono.
    apply echo_point_ge; [exact Ha|apply nth_nonneg_of_int16, Hpos|apply of_int16_repr, nth_in_int16, Hin|lia].
  - rewrite !nth_overflow by lia. lia.
Qed.

Lemma echo_encode_nonneg_witness :
  exists out, encode_echo_simple (const_wav 1000 (Z.to_nat 196808)) [] 100 200 (1#2) = Some out /\
    forall k, nth k (frames (const_wav 1000 (Z.to_nat 196808))) 0 <= nth k (frames out) 0.
Proof.
  destruct (encode_echo_simple (const_wav 1000 (Z.to_nat 196808)) [] 100 200 (1#2)) as [out|] eqn:E.
  - exists out. split; [reflexivity|].
    apply (echo_encode_nonneg (const_wav 1000 (Z.to_nat 196808)) [] 100 200 (1#2) out).
    + lia.
    + lia.
    + unfold Qle. cbn. lia.
    + apply const_wav_int16. unfold in_int16. lia.
    + apply Forall_forall. intros x Hx. apply repeat_spec in Hx. lia.
    + exact E.
  - rewrite encode_echo_out in E; [discriminate| |constructor].
    cbn [const_wav frames]. rewrite repeat_length. unfold chunk_size. cbn [length]. lia.
Defined.

Lemma num_chunks_zero o s d0 d1 :
  Z.min (Z.of_nat (length (frames o))) (Z.of_nat (length (frames s))) < Z.max d0 d1 + chunk_size ->
  num_chunks o s d0 d1 = 0%nat.
Proof.
  unfold num_chunks, chunk_size. intro H.
  set (mn := Z.min (Z.of_nat (length (frames o))) (Z.of_nat (length (frames s)))) in *.
  assert ((mn - Z.max d0 d1) / 8192 < 1) by (apply Z.div_lt_upper_bound; lia).
  lia.
Qed.

(** Buffers too short for one chunk and its echo window
    ([min(len) < max(d0, d1) + chunk_size]) give no bits, no diagnostics
    and no message. *)
Theorem echo_decode_short o s d0 d1 :
  0 <= d0 -> 0 <= d1 ->
  Z.min (Z.of_nat (length (frames o))) (Z.of_nat (length (frames s))) < Z.max d0 d1 + chunk_size ->
  decode_echo_simple o s d0 d1 = (no_message, [], []).
Proof.
  intros Hd0 Hd1 H. rewrite (decode_echo_spec o s d0 d1 Hd0 Hd1).
  rewrite (num_chunks_zero o s d0 d1 H). reflexivity.
Qed.

Lemma echo_decode_short_witness :
  (0 <= 200 /\ 0 <= 400 /\
   Z.min (Z.of_nat (length (frames (const_wav 7 (Z.to_nat 8000)))))
         (Z.of_nat (length (frames (const_wav 7 (Z.to_nat 9000))))) < Z.max 200 400 + chunk_size) /\
  decode_echo_simple (const_wav 7 (Z.to_nat 8000)) (const_wav 7 (Z.to_nat 9000)) 200 400 = (no_message, [], []).
Proof.
  assert (H : Z.min (Z.of_nat (length (frames (const_wav 7 (Z.to_nat 8000)))))
                    (Z.of_nat (length (frames (const_wav 7 (Z.to_nat 9000))))) < Z.max 200 400 + chunk_size)
    by (cbn [const_wav frames]; rewrite !repeat_length; unfold chunk_size; lia).
  split; [split; [lia|split; [lia|exact H]]|].
  apply echo_decode_short; [lia|lia|exact H].
Defined.

(** With equal delays the two correlations coincide, so every bit reads
    [0] and no message is found, whatever the buffers. *)
Theorem echo_decode_equal_delays o s d :
  0 <= d ->
  fst (fst (decode_echo_simple o s d d)) = no_message /\
  snd (decode_echo_simple o s d d) = repeat false (num_chunks o s d d).
Proof.
  intro Hd. rewrite (decode_echo_spec o s d d Hd Hd). cbn [fst snd].
  rewrite (map_ext _ (fun _ : nat => false)) by (intro; apply Z.ltb_irrefl).
  rewrite map_const, length_seq, echo_chars_falses. split; reflexivity.
Qed.

Lemma echo_decode_equal_delays_witness :
  0 <= 300 /\
  fst (fst (decode_echo_simple (const_wav 5 (Z.to_nat 8592)) (const_wav 6 (Z.to_nat 8592)) 300 300)) = no_message /\
  snd (decode_echo_simple (const_wav 5 (Z.to_nat 8592)) (const_wav 6 (Z.to_nat 8592)) 300 300)
    = repeat false (num_chunks (const_wav 5 (Z.to_nat 8592)) (const_wav 6 (Z.to_nat 8592)) 300 300) /\
  num_chunks (const_wav 5 (Z.to_nat 8592)) (const_wav 6 (Z.to_nat 8592)) 300 300 = 1%nat.
Proof.
  split; [lia|].
  destruct (echo_decode_equal_delays (const_wav 5 (Z.to_nat 8592)) (const_wav 6 (Z.to_nat 8592)) 300
              ltac:(lia)) as [H1 H2].
  split; [exact H1|split; [exact H2|vm_compute; reflexivity]].
Defined.

Lemma corr_opp o s d i : corr (map Z.opp o) (map Z.opp s) d i = corr o s d i.
Proof.
  unfold corr. do 2 f_equal. apply map_ext. intro j.
  rewrite !(nth_map0 Z.opp) by reflexivity. unfold fmul, fsub, of_int16.
  match goal with |- round32 (_ * round32 ?x 1) _ = round32 (_ * round32 ?y 1) _ =>
    replace x with (- y) by ring end.
  rewrite round32_opp. f_equal. ring.
Qed.

(** [decode_echo_simple] is blind to the polarity of the recordings:
    negating both the original and the stego samples changes neither the
    message, nor the diagnostics, nor the bits. *)
Theorem echo_decode_negate o s d0 d1 :
  0 <= d0 -> 0 <= d1 ->
  decode_echo_simple (mkWav (params o) (map Z.opp (frames o)))
                     (mkWav (params s) (map Z.opp (frames s))) d0 d1
  = decode_echo_simple o s d0 d1.
Proof.
  intros Hd0 Hd1.
  rewrite (decode_echo_spec _ _ d0 d1 Hd0 Hd1), (decode_echo_spec o s d0 d1 Hd0 Hd1).
  assert (Hn : num_chunks (mkWav (params o) (map Z.opp (frames o)))
                          (mkWav (params s) (map Z.opp (frames s))) d0 d1 = num_chunks o s d0 d1)
    by (unfold num_chunks; cbn [frames]; rewrite !length_map; reflexivity).
  rewrite Hn. cbn [frames].
  set (N := num_chunks o s d0 d1).
  assert (Hb : map (fun i => corr (map Z.opp (frames o)) (map Z.opp (frames s)) d0 i
                             <? corr (map Z.opp (frames o)) (map Z.opp (frames s)) d1 i) (seq 0 N)
             = map (fun i => corr (frames o) (frames s) d0 i <? corr (frames o) (frames s) d1 i)
                   (seq 0 N))
    by (apply map_ext; intro; rewrite !corr_opp; reflexivity).
  assert (Hg : map (fun i => mkDiag (Z.of_nat i) (corr (map Z.opp (frames o)) (map Z.opp (frames s)) d0 i)
                               (corr (map Z.opp (frames o)) (map Z.opp (frames s)) d1 i)
                               (corr (map Z.opp (frames o)) (map Z.opp (frames s)) d0 i
                                <? corr (map Z.opp (frames o)) (map Z.opp (frames s)) d1 i)) (seq 0 N)
             = map (fun i => mkDiag (Z.of_nat i) (corr (frames o) (frames s) d0 i)
                               (corr (frames o) (frames s) d1 i)
                               (corr (frames o) (frames s) d0 i <? corr (frames o) (frames s) d1 i))
                   (seq 0 N))
    by (apply map_ext; intro; rewrite !corr_opp; reflexivity).
  rewrite Hb, Hg. reflexivity.
Qed.

Lemma echo_decode_negate_witness :
  0 <= 200 /\ 0 <= 400 /\
  decode_echo_simple (mkWav (params near_tie_orig) (map Z.opp (frames near_tie_orig)))
                     (mkWav (params near_tie_stego) (map Z.opp (frames near_tie_stego))) 200 400
  = decode_echo_simple near_tie_orig near_tie_stego 200 400 /\
  num_chunks near_tie_orig near_tie_stego 200 400 = 1%nat.
Proof.
  split; [lia|split; [lia|split]].
  - exact (echo_decode_negate near_tie_orig near_tie_stego 200 400 ltac:(lia) ltac:(lia)).
  - vm_compute. reflexivity.
Defined.

Lemma echo_chars_found_inv n : forall bits acc,
  Forall (fun c => 1 <= c <= 127) acc ->
  echo_chars n bits acc <> no_message ->
  Forall (fun c => 1 <= c <= 127) (echo_chars n bits acc) /\
  (8 * (length (echo_chars n bits acc) + 3) <= 8 * length acc + length bits)%nat.
Proof.
  induction n as [|n IH]; intros bits acc Hacc Hne; [contradiction|].
  cbn [echo_chars] in *.
  destruct (Nat.ltb_spec (length (firstn 8 bits)) 8) as [|Hl]; [contradiction|].
  rewrite length_firstn in Hl.
  destruct ((bits_value (map Z.b2z (firstn 8 bits)) =? 0) ||
            (127 <? bits_value (map Z.b2z (firstn 8 bits)))) eqn:G; [contradiction|].
  apply orb_false_iff in G. destruct G as [G1 G2].
  apply Z.eqb_neq in G1. apply Z.ltb_ge in G2.
  set (c := bits_value (map Z.b2z (firstn 8 bits))) in *.
  assert (Hc : 0 <= c).
  { unfold c, bits_value. refine (proj1 (bits_value_acc _ 0 ltac:(lia) _)).
    apply Forall_forall. intros x Hx. apply in_map_iff in Hx. destruct Hx as [b [<- _]].
    destruct b; cbn; lia. }
  assert (Hacc' : Forall (fun c => 1 <= c <= 127) (acc ++ [c]))
    by (apply Forall_app; split; [exact Hacc|constructor; [lia|constructor]]).
  destruct (ends_with (acc ++ [c]) terminator) eqn:He.
  - apply ends_with_spec in He. destruct He as [a Ha].
    assert (H3 : (3 <= length (acc ++ [c]))%nat) by (rewrite Ha, length_app; simpl; lia).
    split.
    + rewrite <- (firstn_skipn (length (acc ++ [c]) - 3) (acc ++ [c])) in Hacc'.
      apply Forall_app in Hacc'. exact (proj1 Hacc').
    + rewrite length_firstn. rewrite length_app in *. cbn [length] in *. lia.
  - destruct (IH (skipn 8 bits) (acc ++ [c]) Hacc' Hne) as [IH1 IH2].
    split; [exact IH1|]. rewrite length_skipn, length_app in IH2. cbn [length] in IH2. lia.
Qed.

(** A message [decode_echo_simple] finds is made of characters in
    [1..127], and its framed length [8 * (len + 3)] is at most the number of
    bits (chunks) read. *)
Theorem echo_decode_found o s d0 d1 :
  0 <= d0 -> 0 <= d1 ->
  fst (fst (decode_echo_simple o s d0 d1)) <> no_message ->
  Forall (fun c => 1 <= c <= 127) (fst (fst (decode_echo_simple o s d0 d1))) /\
  (8 * (length (fst (fst (decode_echo_simple o s d0 d1))) + 3)
   <= length (snd (decode_echo_simple o s d0 d1)))%nat.
Proof.
  intros Hd0 Hd1. rewrite (decode_echo_spec o s d0 d1 Hd0 Hd1). cbn [fst snd]. intro Hne.
  set (bits := map (fun i => corr (frames o) (frames s) d0 i <? corr (frames o) (frames s) d1 i)
                   (seq 0 (num_chunks o s d0 d1))) in *.
  destruct (echo_chars_found_inv _ bits [] (Forall_nil _) Hne) as [H1 H2].
  cbn [length] in H2. split; [exact H1|lia].
Qed.

Lemma echo_decode_found_witness :
  fst (fst (decode_echo_simple (pulse_wav (Z.to_nat 197008))
              (pulse_echo_wav (Z.to_nat 197008) 400 (frame_bits [])) 200 400)) <> no_message /\
  Forall (fun c => 1 <= c <= 127)
    (fst (fst (decode_echo_simple (pulse_wav (Z.to_nat 197008))
                 (pulse_echo_wav (Z.to_nat 197008) 400 (frame_bits [])) 200 400))) /\
  (8 * (length (fst (fst (decode_echo_simple (pulse_wav (Z.to_nat 197008))
                            (pulse_echo_wav (Z.to_nat 197008) 400 (frame_bits [])) 200 400))) + 3)
   <= length (snd (decode_echo_simple (pulse_wav (Z.to_nat 197008))
                     (pulse_echo_wav (Z.to_nat 197008) 400 (frame_bits [])) 200 400)))%nat.
Proof.
  assert (H : fst (fst (decode_echo_simple (pulse_wav (Z.to_nat 197008))
              (pulse_echo_wav (Z.to_nat 197008) 400 (frame_bits [])) 200 400)) <> no_message)
    by (vm_compute; discriminate).
  split; [exact H|].
  exact (echo_decode_found _ _ 200 400 ltac:(lia) ltac:(lia) H).
Defined.

Lemma squares_nonneg_sum (f : Z -> Z -> Z) : forall a b,
  (forall x y, 0 <= f x y) -> 0 <= sumZ (zip_with f a b).
Proof.
  induction a as [|x a IH]; intros [|y b] Hf; cbn [zip_with]; try (unfold sumZ; simpl; lia).
  rewrite sumZ_cons. pose proof (Hf x y). pose proof (IH b Hf). lia.
Qed.

Lemma square_nonneg u v : 0 <= (u - v) * (u - v).
Proof. apply Z.square_nonneg. Qed.

Lemma noise_power_zero : forall a b,
  length a = length b -> (noise_power a b = 0 <-> a = b).
Proof.
  unfold noise_power.
  induction a as [|x a IH]; intros [|y b] Hl; cbn [zip_with length] in *; try discriminate;
    [split; reflexivity|].
  rewrite sumZ_cons.
  pose proof (squares_nonneg_sum (fun a0 b0 => (a0 - b0) * (a0 - b0)) a b
                square_nonneg).
  split.
  - intro H0. assert (x = y) by nia.
    assert (sumZ (zip_with (fun a0 b0 => (a0 - b0) * (a0 - b0)) a b) = 0) by nia.
    f_equal; [assumption|]. apply IH; [lia|assumption].
  - intro E. injection E as -> <-. rewrite Z.sub_diag.
    rewrite (proj2 (IH a ltac:(lia)) eq_refl). reflexivity.
Qed.

Lemma signal_power_nonneg l : 0 <= signal_power l.
Proof.
  unfold signal_power. induction l as [|x l IH]; [unfold sumZ; simpl; lia|].
  cbn [map]. rewrite sumZ_cons. nia.
Qed.

Lemma ratio_bound (S N L : Z) : 0 <= S -> 0 < N -> N <= L ->
  (inject_Z S / inject_Z L <= inject_Z S / inject_Z N)%Q.
Proof.
  intros HS HN HL. unfold Qdiv.
  rewrite (Qmult_comm (inject_Z S) (/ inject_Z L)), (Qmult_comm (inject_Z S) (/ inject_Z N)).
  apply Qmult_le_compat_r; [|unfold Qle; cbn; lia].
  assert (HL0 : (0 < inject_Z L)%Q) by (unfold Qlt; cbn; lia).
  assert (HN0 : (0 < inject_Z N)%Q) by (unfold Qlt; cbn; lia).
  apply Qle_shift_inv_l; [exact HN0|].
  assert (H : (inject_Z N * / inject_Z L <= inject_Z L * / inject_Z L)%Q).
  { apply Qmult_le_compat_r; [rewrite <- Zle_Qle; exact HL|].
    apply Qinv_le_0_compat. apply Qlt_le_weak, HL0. }
  rewrite Qmult_inv_r in H by (intro E; rewrite E in HL0; discriminate).
  rewrite Qmult_comm. exact H.
Qed.

(** [calculate_snr] of two recordings of the same length is infinite
    exactly when they are sample for sample equal. *)
Theorem snr_inf_iff o s :
  length o = length s -> (calculate_snr o s = SnrInf <-> o = s).
Proof.
  intro Hl. unfold calculate_snr. rewrite <- (noise_power_zero o s Hl).
  destruct (Z.eqb_spec (noise_power o s) 0); split; congruence.
Qed.

Lemma snr_inf_iff_witness :
  length [3; -4; 5] = length [3; -4; 6] /\
  (calculate_snr [3; -4; 5] [3; -4; 6] = SnrInf <-> [3; -4; 5] = [3; -4; 6]).
Proof.
  assert (H : length [3; -4; 5] = length [3; -4; 6]) by reflexivity.
  split; [exact H|]. exact (snr_inf_iff _ _ H).
Defined.

Lemma lsb_out_length buf m out :
  encode_lsb buf m = Some out -> length (frames out) = length (frames buf).
Proof.
  intro E.
  assert (Hcap : (length (frame_bits m) <= length (frames buf))%nat)
    by (apply encode_lsb_some_iff; eauto).
  rewrite encode_lsb_out in E by exact Hcap. injection E as <-. cbn [frames].
  rewrite length_map, embed_bits_length; rewrite length_map; [reflexivity|exact Hcap].
Qed.

(** [src/snr.py] on an LSB stego buffer: the SNR is infinite only for an
    unchanged buffer, and otherwise its power ratio is at least
    [signal_power / len(bits)], bits being the framed message. *)
Theorem lsb_snr_bound buf m out :
  Forall in_int16 (frames buf) ->
  encode_lsb buf m = Some out ->
  match calculate_snr (frames buf) (frames out) with
  | SnrInf => frames out = frames buf
  | SnrDb r => (inject_Z (signal_power (frames buf))
                / inject_Z (Z.of_nat (length (frame_bits m))) <= r)%Q
  end.
Proof.
  intros Hwf E.
  assert (Hn : noise_power (frames buf) (frames out) <= Z.of_nat (length (frame_bits m))).
  { apply noise_power_bound.
    - intro k. pose proof (proj1 (lsb_sample_step buf m out Hwf E k)). lia.
    - intros k Hk. symmetry. exact (proj2 (lsb_sample_step buf m out Hwf E k) Hk). }
  pose proof (lsb_out_length buf m out E) as Hl.
  unfold calculate_snr.
  destruct (Z.eqb_spec (noise_power (frames buf) (frames out)) 0) as [H0|H0].
  - symmetry. apply (noise_power_zero (frames buf) (frames out) (eq_sym Hl)). exact H0.
  - apply ratio_bound; [apply signal_power_nonneg| |exact Hn].
    pose proof (squares_nonneg_sum (fun a0 b0 => (a0 - b0) * (a0 - b0)) (frames buf) (frames out)
                  square_nonneg).
    unfold noise_power in *. lia.
Qed.

Lemma lsb_snr_bound_witness :
  exists out, encode_lsb (const_wav 7 40) (codes "HI") = Some out /\
  Forall in_int16 (frames (const_wav 7 40)) /\
  match calculate_snr (frames (const_wav 7 40)) (frames out) with
  | SnrInf => frames out = frames (const_wav 7 40)
  | SnrDb r => (inject_Z (signal_power (frames (const_wav 7 40)))
                / inject_Z (Z.of_nat (length (frame_bits (codes "HI")))) <= r)%Q
  end.
Proof.
  assert (Hw : Forall in_int16 (frames (const_wav 7 40)))
    by (apply const_wav_int16; unfold in_int16; lia).
  destruct (encode_lsb (const_wav 7 40) (codes "HI")) as [out|] eqn:E;
    [|vm_compute in E; discriminate].
  exists out. split; [reflexivity|]. split; [exact Hw|].
  exact (lsb_snr_bound _ _ out Hw E).
Defined.

(** [convert_to_mono] keeps the length and the int16 range: the mean of
    two int16 channels, truncated toward zero, is an int16 sample. *)
Theorem mono_range l :
  Forall (fun '(x, y) => in_int16 x /\ in_int16 y) l ->
  length (convert_to_mono (StereoAudio l)) = length l /\
  Forall in_int16 (convert_to_mono (StereoAudio l)).
Proof.
  intro H. cbn [convert_to_mono]. split; [apply length_map|].
  induction H as [|[x y] l [Hx Hy] _ IH]; cbn [map]; constructor; [|exact IH].
  unfold in_int16 in *. split.
  - rewrite <- (Z.quot_mul (-32768) 2) by lia. apply Z.quot_le_mono; lia.
  - rewrite <- (Z.quot_mul 32767 2) by lia. apply Z.quot_le_mono; lia.
Qed.

Lemma mono_range_witness :
  Forall (fun '(x, y) => in_int16 x /\ in_int16 y) [(-32768, -32768); (32767, -1); (3, 4)] /\
  length (convert_to_mono (StereoAudio [(-32768, -32768); (32767, -1); (3, 4)])) = 3%nat /\
  Forall in_int16 (convert_to_mono (StereoAudio [(-32768, -32768); (32767, -1); (3, 4)])).
Proof.
  assert (H : Forall (fun '(x, y) => in_int16 x /\ in_int16 y) [(-32768, -32768); (32767, -1); (3, 4)])
    by (repeat constructor; unfold in_int16; lia).
  split; [exact H|]. exact (mono_range _ H).
Defined.

(** A stereo recording with both channels equal becomes that channel. *)
Theorem mono_same_channels l :
  convert_to_mono (StereoAudio (map (fun x => (x, x)) l)) = l.
Proof.
  cbn [convert_to_mono]. rewrite map_map.
  induction l as [|x l IH]; [reflexivity|]. cbn [map]. rewrite IH. f_equal.
  replace (x + x) with (x * 2) by ring. apply Z.quot_mul. lia.
Qed.

(** Truncation toward zero makes the mono mix commute with negation:
    inverting both channels inverts the mono signal (a floor division
    would not). *)
Theorem mono_negate l :
  convert_to_mono (StereoAudio (map (fun '(x, y) => (- x, - y)) l))
  = map Z.opp (convert_to_mono (StereoAudio l)).
Proof.
  cbn [convert_to_mono]. rewrite !map_map. apply map_ext. intros [x y].
  replace (- x + - y) with (- (x + y)) by ring. apply Z.quot_opp_l. lia.
Qed.
